(** * keiran.cc: the chunk upload endpoint and the upload form

    A shallow embedding of

    - [src/app/api/upload-chunk/route.ts]: the [POST] handler that stores one
      chunk of a file below [public/uploads/chunks/<filename>/];
    - [src/components/file-upload.tsx]: the [onDrop] and [handleUpload]
      callbacks of the upload form, with the [MAX_FILE_SIZE] ceiling.

    Conventions of the model.

    - A JavaScript string is a [string]; every [ascii] stands for one UTF-16
      code unit below 256.
    - A JavaScript number that the code only tests with [isNaN] is a
      [JsNumber]: [NaN] or an exact integer (the rounding of integers
      beyond 2^53 is not modelled, no branch of the code depends on it).
    - The host is POSIX: [path.join] is [path.posix.join].  The file system
      has directories and regular files only (no symbolic links), every
      permission is granted, names and disks have no size limit.
    - The handler runs in a small state and exception monad over a [World]:
      the file system together with the log of the [fs] calls made.
    - Requests are served one after the other, in their order of arrival;
      the interleaving of two handlers at their [await] points is not
      modelled. *)

From Stdlib Require Import ZArith NArith Ascii String.
From stdpp Require Import gmap strings list.

Local Open Scope Z_scope.

(** ** JavaScript strings *)

Module Js.

Definition slash : ascii := "/"%char.

(** [s.split('/')]: the pieces of [s] between the separators. *)
Fixpoint split_slash (s : string) : list string :=
  match s with
  | "" => [""]
  | String c s' =>
      if Ascii.eqb c slash then "" :: split_slash s'
      else match split_slash s' with
           | seg :: rest => String c seg :: rest
           | [] => [String c ""]
           end
  end.

(** [segs.join('/')]. *)
Fixpoint join_slash (segs : list string) : string :=
  match segs with
  | [] => ""
  | [seg] => seg
  | seg :: rest => seg +:+ String slash (join_slash rest)
  end.

(** [s.charCodeAt(0) === 47]. *)
Definition starts_with_slash (s : string) : bool :=
  match s with
  | String c _ => Ascii.eqb c slash
  | "" => false
  end.

(** [s.charCodeAt(s.length - 1) === 47]. *)
Fixpoint ends_with_slash (s : string) : bool :=
  match s with
  | "" => false
  | String c "" => Ascii.eqb c slash
  | String _ s' => ends_with_slash s'
  end.

(** Does the string hold the code unit [c]? *)
Fixpoint contains (c : ascii) (s : string) : bool :=
  match s with
  | "" => false
  | String c' s' => Ascii.eqb c' c || contains c s'
  end.

Definition is_empty (s : string) : bool :=
  match s with "" => true | _ => false end.

(** *** Numbers and [parseInt] *)

Inductive JsNumber : Type :=
  | NaN
  | Num (z : Z).

Definition isNaN (x : JsNumber) : bool :=
  match x with NaN => true | Num _ => false end.

(** [StrWhiteSpaceChar] among the code units below 256: TAB, LF, VT, FF, CR,
    SP and NBSP. *)
Definition is_StrWhiteSpaceChar (c : ascii) : bool :=
  let n := N_of_ascii c in
  ((9 <=? n) && (n <=? 13) || (n =? 32) || (n =? 160))%N.

Fixpoint trim_start (s : string) : string :=
  match s with
  | String c s' => if is_StrWhiteSpaceChar c then trim_start s' else s
  | "" => ""
  end.

(** The value of [c] as a digit in radix [R], when it is one. *)
Definition digit_value (R : N) (c : ascii) : option N :=
  let n := N_of_ascii c in
  let v :=
    if ((48 <=? n) && (n <=? 57))%N then Some (n - 48)%N
    else if ((97 <=? n) && (n <=? 122))%N then Some (n - 87)%N
    else if ((65 <=? n) && (n <=? 90))%N then Some (n - 55)%N
    else None in
  match v with
  | Some d => if (d <? R)%N then Some d else None
  | None => None
  end.

(** The longest prefix of [s] made of radix-[R] digits. *)
Fixpoint digit_prefix (R : N) (s : string) : list N :=
  match s with
  | String c s' =>
      match digit_value R c with
      | Some d => d :: digit_prefix R s'
      | None => []
      end
  | "" => []
  end.

Definition mathInt (R : N) (ds : list N) : N :=
  fold_left (fun acc d => acc * R + d)%N ds 0%N.

(** [parseInt(string)] with no radix argument (ECMA-262, 19.2.5): leading
    white space is skipped, a sign is read, a [0x] or [0X] prefix selects
    radix 16, and the longest run of digits is converted; no digit gives
    [NaN].  Whatever follows the digits is ignored.  [Num z] holds the
    integer that the digits denote; the builtin returns the Number nearest
    to it, which is that integer up to 2^53 in absolute value and is never
    [NaN]. *)
Definition parseInt (string_ : string) : JsNumber :=
  let S0 := trim_start string_ in
  let '(sign, S1) :=
    match S0 with
    | String "-" S' => (-1, S')
    | String "+" S' => (1, S')
    | _ => (1, S0)
    end in
  let '(R, S2) :=
    match S1 with
    | String "0" (String "x" S') => (16%N, S')
    | String "0" (String "X" S') => (16%N, S')
    | _ => (10%N, S1)
    end in
  match digit_prefix R S2 with
  | [] => NaN
  | ds => Num (sign * Z.of_N (mathInt R ds))
  end.

(** *** [String(i)] for a non-negative integer [i] *)

Definition digit_char (d : nat) : ascii := ascii_of_nat (48 + d).

(** The decimal digits of [n], least significant first. *)
Fixpoint digits_of (fuel n : nat) : list nat :=
  match fuel with
  | O => []
  | S fuel' =>
      if (n <? 10)%nat then [n]
      else (n mod 10)%nat :: digits_of fuel' (n / 10)%nat
  end.

Fixpoint string_of_digits (ds : list nat) : string :=
  match ds with
  | [] => ""
  | d :: ds' => String (digit_char d) (string_of_digits ds')
  end.

(** The canonical decimal numeral of [n]: what [String(n)] and the template
    literal [`${n}`] give for an index. *)
Definition decimal (n : nat) : string :=
  string_of_digits (rev (digits_of (S n) n)).

End Js.

(** ** [path.join] of Node.js on a POSIX host *)

Module path.

Import Js.

(** One step of [normalizeString] (lib/path.js): [res] is the stack of the
    segments kept so far, last segment first.  Empty segments and ["."] are
    dropped; [".."] removes the last segment unless there is none or it is
    itself [".."], in which case it is kept only when the path may climb above
    its start ([allowAboveRoot]). *)
Definition normalize_step (allowAboveRoot : bool)
    (res : list string) (seg : string) : list string :=
  if decide (seg = "" ∨ seg = ".") then res
  else if decide (seg = "..") then
    match res with
    | last_seg :: res' =>
        if decide (last_seg = "..")
        then (if allowAboveRoot then ".." :: res else res)
        else res'
    | [] => if allowAboveRoot then [".."] else []
    end
  else seg :: res.

Definition normalizeString (segs : list string) (allowAboveRoot : bool)
    : list string :=
  rev (fold_left (normalize_step allowAboveRoot) segs []).

(** [path.posix.normalize]. *)
Definition normalize (p : string) : string :=
  if is_empty p then "."
  else
    let isAbsolute := starts_with_slash p in
    let trailingSeparator := ends_with_slash p in
    let res := normalizeString (split_slash p) (negb isAbsolute) in
    match res with
    | [] => if isAbsolute then "/" else if trailingSeparator then "./" else "."
    | _ =>
        (if isAbsolute then "/" else "") +:+ join_slash res
          +:+ (if trailingSeparator then "/" else "")
    end.

(** [path.posix.join(...args)]: the non-empty arguments joined with ["/"],
    then normalized. *)
Definition join (args : list string) : string :=
  match filter (λ a, is_empty a = false) args with
  | [] => "."
  | parts => normalize (join_slash parts)
  end.

End path.

(** ** The file system and the [fs.promises] calls *)

Module fs.

Import Js.

Inductive Node : Type :=
  | Dir
  | File (data : list Byte.byte).

(** A file system maps the absolute location of every entry, the list of
    names from the root, to a directory or a regular file.  The root is
    always a directory. *)
Abbreviation FileSystem := (gmap (list string) Node).

Definition node_at (files : FileSystem) (loc : list string) : option Node :=
  match loc with
  | [] => Some Dir
  | _ => files !! loc
  end.

(** The walk of the kernel along an absolute path: empty components and
    ["."] are skipped, [".."] moves to the parent, and the parent of the root
    is the root.  The walk is taken on the names alone: it is the kernel's
    on the absolute paths that [path.join] returns, which hold no [".."],
    whereas on a path with [name/..] the kernel also asks for [name] to be
    a directory. *)
Definition resolve (p : string) : list string :=
  path.normalizeString (split_slash p) false.

(** Node refuses a path that holds a null byte before any system call. *)
Definition valid_path (p : string) : bool := negb (contains "000"%char p).

(** [mkdir -p]: walk down from [above], creating what is missing; a regular
    file on the way is an error (ENOTDIR, or EEXIST at the last name). *)
Fixpoint mkdir_from (files : FileSystem) (above rest : list string)
    : option FileSystem :=
  match rest with
  | [] => Some files
  | name :: rest' =>
      let d := above ++ [name] in
      match node_at files d with
      | Some Dir => mkdir_from files d rest'
      | Some (File _) => None
      | None => mkdir_from (<[d := Dir]> files) d rest'
      end
  end.

(** [fs.mkdir(p, { recursive: true })]; [None] when the promise rejects. *)
Definition mkdir_recursive (files : FileSystem) (p : string)
    : option FileSystem :=
  if valid_path p then mkdir_from files [] (resolve p) else None.

(** [fs.writeFile(p, data)]: open with O_WRONLY|O_CREAT|O_TRUNC and write.
    It rejects when [p] names a directory (the root, a trailing separator,
    an existing directory: EISDIR) or when the parent of [p] is not an
    existing directory (ENOENT, ENOTDIR). *)
Definition writeFile (files : FileSystem) (p : string)
    (data : list Byte.byte) : option FileSystem :=
  if valid_path p then
    let loc := resolve p in
    match loc with
    | [] => None
    | _ =>
        if ends_with_slash p then None
        else match node_at files (removelast loc) with
             | Some Dir =>
                 match files !! loc with
                 | Some Dir => None
                 | _ => Some (<[loc := File data]> files)
                 end
             | _ => None
             end
    end
  else None.

(** [fs.readFile(p)]. *)
Definition readFile (files : FileSystem) (p : string)
    : option (list Byte.byte) :=
  if valid_path p && negb (ends_with_slash p) then
    match files !! resolve p with
    | Some (File data) => Some data
    | _ => None
    end
  else None.

(** The calls of [fs.promises] that a chunk store can make. *)
Inductive FsCall : Type :=
  | call_mkdir (p : string)
  | call_writeFile (p : string) (data : list Byte.byte)
  | call_rename (oldPath newPath : string).

End fs.

(** ** The monad of the handler: state and exceptions *)

Module Effect.

Import fs.

Record World : Type := mkWorld {
  files : FileSystem;
  calls : list FsCall
}.

Inductive Exception : Type :=
  | TypeError
  | BodyError
  | SystemError.

Inductive Completion (A : Type) : Type :=
  | Normal (a : A)
  | Throw (e : Exception).
Arguments Normal {A} a.
Arguments Throw {A} e.

Definition M (A : Type) : Type := World → World * Completion A.

Definition ret {A} (a : A) : M A := λ w, (w, Normal a).

Definition throw {A} (e : Exception) : M A := λ w, (w, Throw e).

Definition bind {A B} (m : M A) (k : A → M B) : M B :=
  λ w, match m w with
       | (w', Normal a) => k a w'
       | (w', Throw e) => (w', Throw e)
       end.

(** [try { m } catch (error) { handler error }]. *)
Definition try_catch {A} (m : M A) (handler : Exception → M A) : M A :=
  λ w, match m w with
       | (w', Normal a) => (w', Normal a)
       | (w', Throw e) => handler e w'
       end.

Definition log_call (c : FsCall) : M unit :=
  λ w, (mkWorld (files w) (calls w ++ [c]), Normal tt).

(** [await fs.mkdir(p, { recursive: true })]. *)
Definition fs_mkdir (p : string) : M unit :=
  λ w, let w1 := mkWorld (files w) (calls w ++ [call_mkdir p]) in
       match mkdir_recursive (files w) p with
       | Some files' => (mkWorld files' (calls w1), Normal tt)
       | None => (w1, Throw SystemError)
       end.

(** [await fs.writeFile(p, data)]. *)
Definition fs_writeFile (p : string) (data : list Byte.byte) : M unit :=
  λ w, let w1 := mkWorld (files w) (calls w ++ [call_writeFile p data]) in
       match writeFile (files w) p data with
       | Some files' => (mkWorld files' (calls w1), Normal tt)
       | None => (w1, Throw SystemError)
       end.

End Effect.

Declare Scope effect_scope.
Delimit Scope effect_scope with effect.
Notation "x <~ m ;; k" := (Effect.bind m (λ x, k))
  (at level 100, m at next level, right associativity) : effect_scope.
Notation "m ;;; k" := (Effect.bind m (λ _, k))
  (at level 100, right associativity) : effect_scope.

(** ** [src/app/api/upload-chunk/route.ts] *)

Module Route.

Import Js fs Effect.

Inductive FormDataEntryValue : Type :=
  | entry_string (s : string)
  | entry_File (bytes : list Byte.byte).

Abbreviation FormData := (list (string * FormDataEntryValue)).

(** A request: its body as multipart form data, or [None] when
    [request.formData()] rejects. *)
Record NextRequest : Type := mkRequest {
  request_body : option FormData
}.

Inductive Body : Type :=
  | body_text (text : string)
  | body_json (success : bool) (message : string).

Record NextResponse : Type := mkResponse {
  response_body : Body;
  status : Z
}.

(** [new NextResponse(text, { status })]. *)
Definition new_NextResponse (text : string) (st : Z) : NextResponse :=
  mkResponse (body_text text) st.

(** [NextResponse.json({ success, message })], with the default status. *)
Definition NextResponse_json (success : bool) (message : string)
    : NextResponse :=
  mkResponse (body_json success message) 200.

(** [await request.formData()]. *)
Definition request_formData (request : NextRequest) : M FormData :=
  match request_body request with
  | Some formData => ret formData
  | None => throw BodyError
  end.

(** [formData.get(name)]: the first value of the field, or [null]. *)
Fixpoint formData_get (formData : FormData) (name : string)
    : option FormDataEntryValue :=
  match formData with
  | [] => None
  | (n, v) :: rest => if decide (n = name) then Some v else formData_get rest name
  end.

(** [!v] for a field value or [null]: only [null] and the empty string are
    falsy. *)
Definition not_ (v : option FormDataEntryValue) : bool :=
  match v with
  | None => true
  | Some (entry_string s) => is_empty s
  | Some (entry_File _) => false
  end.

(** [String(v || '')]. *)
Definition String_or_empty (v : option FormDataEntryValue) : string :=
  match v with
  | None => ""
  | Some (entry_string s) => s
  | Some (entry_File _) => "[object File]"
  end.

(** [await chunk.arrayBuffer()], then [Buffer.from]: a string has no such
    method. *)
Definition arrayBuffer (chunk : option FormDataEntryValue)
    : M (list Byte.byte) :=
  match chunk with
  | Some (entry_File bytes) => ret bytes
  | _ => throw TypeError
  end.

(** The template literal [`chunk-${chunkIndex}`]. *)
Definition chunk_name (chunkIndex : string) : string := "chunk-" +:+ chunkIndex.

Section Handler.

(** The names of [process.cwd()] from the root. *)
Variable cwd : list string.

Definition process_cwd : string := "/" +:+ join_slash cwd.

Definition uploadDir_of (filename : string) : string :=
  path.join [process_cwd; "public"; "uploads"; "chunks"; filename].

Definition chunkPath_of (filename chunkIndex : string) : string :=
  path.join [uploadDir_of filename; chunk_name chunkIndex].

Local Open Scope effect_scope.

(** The [try] block of the handler. *)
Definition POST_try (request : NextRequest) : M NextResponse :=
     formData <~ request_formData request ;;
     let chunk := formData_get formData "file" in
     let chunkIndex := String_or_empty (formData_get formData "chunkIndex") in
     let totalChunks := String_or_empty (formData_get formData "totalChunks") in
     let filename := String_or_empty (formData_get formData "filename") in
     if not_ chunk || is_empty chunkIndex || is_empty totalChunks
        || is_empty filename
     then ret (new_NextResponse "Missing required form data" 400)
     else
       let chunkIdx := parseInt chunkIndex in
       if isNaN chunkIdx
       then ret (new_NextResponse "Invalid chunk index" 400)
       else
         let uploadDir := uploadDir_of filename in
         fs_mkdir uploadDir ;;;
         let chunkPath := chunkPath_of filename chunkIndex in
         buffer <~ arrayBuffer chunk ;;
         fs_writeFile chunkPath buffer ;;;
         ret (NextResponse_json true
                ("Chunk " +:+ chunkIndex +:+ " of " +:+ totalChunks
                   +:+ " uploaded successfully")).

(** The [catch] clause; [console.error] leaves the world alone. *)
Definition POST_catch (error : Exception) : M NextResponse :=
  ret (new_NextResponse "Chunk upload failed" 500).

Definition POST (request : NextRequest) : M NextResponse :=
  try_catch (POST_try request) POST_catch.

(** The handler on a world: the new world and the response.  [POST] always
    ends in a response, its [catch] clause covers the whole body. *)
Definition handle (w : World) (request : NextRequest)
    : World * NextResponse :=
  match POST request w with
  | (w', Normal response) => (w', response)
  | (w', Throw _) => (w', new_NextResponse "Chunk upload failed" 500)
  end.

(** A sequence of requests served one after the other. *)
Fixpoint serve (w : World) (requests : list NextRequest)
    : World * list NextResponse :=
  match requests with
  | [] => (w, [])
  | request :: rest =>
      let '(w1, response) := handle w request in
      let '(w2, responses) := serve w1 rest in
      (w2, response :: responses)
  end.

End Handler.

(** A chunk request as a client builds it. *)
Definition chunk_request (bytes : list Byte.byte)
    (chunkIndex totalChunks filename : string) : NextRequest :=
  mkRequest (Some [("file", entry_File bytes);
                   ("chunkIndex", entry_string chunkIndex);
                   ("totalChunks", entry_string totalChunks);
                   ("filename", entry_string filename)]).

Definition empty_world : World := mkWorld ∅ [].

End Route.

(** ** [src/components/file-upload.tsx] *)

Module FileUpload.

Import Effect.

(** [const MAX_FILE_SIZE = 1024 * 1024 * 1024]. *)
Definition MAX_FILE_SIZE : Z := 1024 * 1024 * 1024.

(** A [File] of the browser: the form reads its name and its size. *)
Record JsFile : Type := mkFile {
  name : string;
  size : Z
}.

(** The state hooks of the component, the toasts raised through the
    [setToast] property and the files posted to [/api/upload]. *)
Record State : Type := mkState {
  file : option JsFile;
  uploading : bool;
  localUploadedFileUrl : option string;
  uploadSuccess : bool;
  rawUrl : option string;
  buttonLabel : string;
  uploadProgress : Z;
  toasts : list (string * string);
  posted : list JsFile
}.

Definition initial : State :=
  mkState None false None false None "Upload" 0 [] [].

Definition setFile (f : option JsFile) (st : State) : State :=
  mkState f (uploading st) (localUploadedFileUrl st) (uploadSuccess st)
    (rawUrl st) (buttonLabel st) (uploadProgress st) (toasts st) (posted st).

Definition setToast (message description : string) (st : State) : State :=
  mkState (file st) (uploading st) (localUploadedFileUrl st)
    (uploadSuccess st) (rawUrl st) (buttonLabel st) (uploadProgress st)
    (toasts st ++ [(message, description)]) (posted st).

(** [onDrop]: [acceptedFiles[0]] of an empty array is [undefined], and
    reading its [size] throws. *)
Definition onDrop (acceptedFiles : list JsFile) (st : State)
    : Completion State :=
  match acceptedFiles with
  | [] => Throw TypeError
  | selectedFile :: _ =>
      if MAX_FILE_SIZE <? size selectedFile
      then Normal (setToast "File too large" "Maximum file size is 1GB." st)
      else Normal (setFile (Some selectedFile) st)
  end.

(** [handleUpload], with the outcome of the [fetch] as an argument: [None]
    when the request fails or the response is not [ok], else the
    [imageUrl] and [rawUrl] of the answer, for an answer that holds both
    as strings. *)
Definition handleUpload (response : option (string * string)) (st : State)
    : State :=
  match file st with
  | None => st
  | Some f =>
      let sent := posted st ++ [f] in
      match response with
      | Some (imageUrl, raw) =>
          mkState None false (Some imageUrl) true (Some raw) "Uploaded" 0
            (toasts st) sent
      | None =>
          mkState None false (localUploadedFileUrl st) (uploadSuccess st)
            (rawUrl st) (buttonLabel st) 0
            (toasts st
               ++ [("Upload failed",
                    "There was an error uploading your file. Please try again.")])
            sent
      end
  end.

Definition resetUploadState (st : State) : State :=
  mkState (file st) (uploading st) (localUploadedFileUrl st) false
    (rawUrl st) "Upload" (uploadProgress st) (toasts st) (posted st).

(** What can happen to the form. *)
Inductive Event : Type :=
  | Drop (acceptedFiles : list JsFile)
  | ClickUpload (response : option (string * string))
  | ResetTimer.

(** An exception in a callback leaves the state as it was. *)
Definition step (st : State) (ev : Event) : State :=
  match ev with
  | Drop acceptedFiles =>
      match onDrop acceptedFiles st with
      | Normal st' => st'
      | Throw _ => st
      end
  | ClickUpload response => handleUpload response st
  | ResetTimer => resetUploadState st
  end.

Definition run (events : list Event) : State := fold_left step events initial.

End FileUpload.

(** ** [handleUpload] around its [await] *)

Module FileUploadLive.

Import Effect FileUpload.

(** The button of the form: [disabled={!file || uploading}]. *)
Definition upload_disabled (st : State) : bool :=
  match file st with
  | None => true
  | Some _ => uploading st
  end.

(** [handleUpload] up to [await fetch(...)]: with a selected file, the
    flags are set and the file is posted. *)
Definition handleUpload_begin (st : State) : State :=
  match file st with
  | None => st
  | Some f =>
      mkState (Some f) true (localUploadedFileUrl st) (uploadSuccess st)
        (rawUrl st) (buttonLabel st) 0 (toasts st) (posted st ++ [f])
  end.

(** [handleUpload] from the answer of the [fetch] on: the [try] block goes
    on or the [catch] clause runs, then the [finally] clause.  The answer
    is as for [handleUpload]: [None], or both links as strings. *)
Definition handleUpload_end (response : option (string * string))
    (st : State) : State :=
  match response with
  | Some (imageUrl, raw) =>
      mkState None false (Some imageUrl) true (Some raw) "Uploaded"
        (uploadProgress st) (toasts st) (posted st)
  | None =>
      mkState None false (localUploadedFileUrl st) (uploadSuccess st)
        (rawUrl st) (buttonLabel st) (uploadProgress st)
        (toasts st
           ++ [("Upload failed",
                "There was an error uploading your file. Please try again.")])
        (posted st)
  end.

(** The form with the number of requests whose answer is awaited. *)
Record Live : Type := mkLive {
  ui : State;
  pending : nat
}.

Definition live_initial : Live := mkLive initial 0.

Inductive LiveEvent : Type :=
  | LiveDrop (acceptedFiles : list JsFile)
  | LiveClick
  | LiveSettle (response : option (string * string))
  | LiveReset.

(** A click reaches [handleUpload] only through the enabled button; an
    answer arrives only for a request that awaits one. *)
Definition live_step (l : Live) (ev : LiveEvent) : Live :=
  match ev with
  | LiveDrop acceptedFiles => mkLive (step (ui l) (Drop acceptedFiles)) (pending l)
  | LiveClick =>
      if upload_disabled (ui l) then l
      else mkLive (handleUpload_begin (ui l)) (S (pending l))
  | LiveSettle response =>
      match pending l with
      | O => l
      | S n => mkLive (handleUpload_end response (ui l)) n
      end
  | LiveReset => mkLive (resetUploadState (ui l)) (pending l)
  end.

Definition live_run (events : list LiveEvent) : Live :=
  fold_left live_step events live_initial.

End FileUploadLive.

(** ** The expiry of a paste ([POST] of the pastes route) *)

Module Pastes.

Import Js.

(** [const maxExpirationTime = 30 * 24 * 60 * 60 * 1000]. *)
Definition maxExpirationTime : Z := 30 * 24 * 60 * 60 * 1000.

(** [const defaultExpirationTime = 7 * 24 * 60 * 60 * 1000]. *)
Definition defaultExpirationTime : Z := 7 * 24 * 60 * 60 * 1000.

Section Expiration.

(** [new Date(s).getTime()]: the time value of a date string in
    milliseconds, [NaN] for a string that is no date. *)
Variable Date_getTime : string → JsNumber.

(** The time value of [expiration] after lines 55 to 65 of the handler;
    [now1], [now2] and [now3] are what the three calls of [Date.now()] give,
    in the order of the text. *)
Definition expiration (expirationTime : option string) (now1 now2 now3 : Z)
    : Z :=
  let expiration := now1 + defaultExpirationTime in
  match expirationTime with
  | None => expiration
  | Some s =>
      if is_empty s then expiration
      else
        match Date_getTime s with
        | NaN => expiration
        | Num customExpiration =>
            if now2 + maxExpirationTime <? customExpiration
            then now3 + maxExpirationTime
            else customExpiration
        end
  end.

End Expiration.

End Pastes.

(** ** The merge of the chunks *)

Module Assembly.

Import Js fs Route.

Section Assemble.

Variable cwd : list string.

(** Modelled from the spec: [ChunkStore.read(uploadId, chunkIndex)], absent
    from the sources; it returns the bytes of the chunk or fails when there
    is none.  The chunk of index [i] is looked up where the handler stores a
    chunk whose [chunkIndex] field is the decimal numeral of [i]. *)
Definition ChunkStore_read (files : FileSystem) (uploadId : string)
    (chunkIndex : nat) : option (list Byte.byte) :=
  readFile files (chunkPath_of cwd uploadId (decimal chunkIndex)).

(** Modelled from the spec: the merge loop of [AssemblyCoordinator.assemble],
    absent from the sources; it reads the chunks from [next] on in strict
    index order and appends each to the output as it is read, and fails on
    the first chunk that cannot be read. *)
Fixpoint assemble_from (files : FileSystem) (uploadId : string)
    (next count : nat) : option (list Byte.byte) :=
  match count with
  | O => Some []
  | S count' =>
      bytes ← ChunkStore_read files uploadId next;
      rest ← assemble_from files uploadId (S next) count';
      Some (bytes ++ rest)
  end.

(** Modelled from the spec: [AssemblyCoordinator.assemble(uploadId)] for a
    session of [totalChunks] chunks; the result is the content of the Final
    Artifact. *)
Definition assemble (files : FileSystem) (uploadId : string)
    (totalChunks : nat) : option (list Byte.byte) :=
  assemble_from files uploadId 0 totalChunks.

End Assemble.

End Assembly.

(** * Properties *)

(** ** The model on a few inputs *)

Module ModelChecks.

Import Js path fs Effect Route.

Example parseInt_decimal_digits : parseInt "42" = Num 42.
Proof. reflexivity. Qed.

Example parseInt_leading_zero : parseInt "07" = Num 7.
Proof. reflexivity. Qed.

Example parseInt_negative : parseInt "-1" = Num (-1).
Proof. reflexivity. Qed.

Example parseInt_trailing_text : parseInt "7abc" = Num 7.
Proof. reflexivity. Qed.

Example parseInt_white_space_and_hex : parseInt "  0x1F" = Num 31.
Proof. reflexivity. Qed.

Example parseInt_no_digit : parseInt "abc" = NaN.
Proof. reflexivity. Qed.

Example parseInt_of_a_File : parseInt (String_or_empty (Some (entry_File []))) = NaN.
Proof. reflexivity. Qed.

Example decimal_of_120 : decimal 120 = "120".
Proof. reflexivity. Qed.

Example join_plain :
  join ["/srv/app"; "public"; "uploads"; "chunks"; "a.bin"]
  = "/srv/app/public/uploads/chunks/a.bin".
Proof. reflexivity. Qed.

Example join_parent :
  join ["/srv/app"; "public"; "uploads"; "chunks"; "../../x/"]
  = "/srv/app/public/x/".
Proof. reflexivity. Qed.

Example join_above_root : join ["/"; "../.."; "etc"] = "/etc".
Proof. reflexivity. Qed.

Example join_relative : join ["a"; "../../b"] = "../b".
Proof. reflexivity. Qed.

Example join_dot : join ["/srv/app/a.bin"; "chunk-7/."] = "/srv/app/a.bin/chunk-7".
Proof. reflexivity. Qed.

Example writeFile_needs_the_directory :
  writeFile ∅ "/srv/app/chunk-0" [Byte.x01] = None.
Proof. reflexivity. Qed.

Example mkdir_then_writeFile :
  (files1 ← mkdir_recursive ∅ "/srv/app";
   files2 ← writeFile files1 "/srv/app/chunk-0" [Byte.x01];
   readFile files2 "/srv/app/chunk-0") = Some [Byte.x01].
Proof. vm_compute. reflexivity. Qed.

Example mkdir_over_a_file :
  (files1 ← mkdir_recursive ∅ "/srv";
   files2 ← writeFile files1 "/srv/app" [Byte.x01];
   mkdir_recursive files2 "/srv/app/public") = None.
Proof. vm_compute. reflexivity. Qed.

(** A text field named [file] passes the guard; the directory is made and
    the missing [arrayBuffer] method is the failure. *)
Example text_in_place_of_the_blob :
  let request :=
    mkRequest (Some [("file", entry_string "text"); ("chunkIndex", entry_string "0");
                     ("totalChunks", entry_string "1");
                     ("filename", entry_string "a.bin")]) in
  status (handle ["srv"; "app"] empty_world request).2 = 500
  ∧ calls (handle ["srv"; "app"] empty_world request).1
    = [call_mkdir "/srv/app/public/uploads/chunks/a.bin"].
Proof. cbv zeta. split; vm_compute; reflexivity. Qed.

End ModelChecks.

(** ** Strings and paths *)

Module PathFacts.

Import Js path fs.

Lemma append_cons (c : ascii) (s t : string) :
  String c s +:+ t = String c (s +:+ t).
Proof. reflexivity. Qed.

Lemma split_slash_not_nil (s : string) : split_slash s ≠ [].
Proof.
  induction s as [|c s IH]; simpl; [done|].
  destruct (Ascii.eqb c slash); [done|].
  destruct (split_slash s); done.
Qed.

Lemma split_slash_app (a b : string) :
  split_slash (a +:+ String slash b) = split_slash a ++ split_slash b.
Proof.
  induction a as [|c a IH].
  - reflexivity.
  - rewrite append_cons. simpl. rewrite IH.
    destruct (Ascii.eqb c slash); [done|].
    pose proof (split_slash_not_nil a) as Hne.
    destruct (split_slash a); [done|]. reflexivity.
Qed.

Lemma split_slash_noslash (s : string) :
  contains slash s = false → split_slash s = [s].
Proof.
  induction s as [|c s IH]; simpl; [done|].
  intros [Hc Hs]%orb_false_iff. rewrite Hc, (IH Hs). reflexivity.
Qed.

Lemma split_slash_pieces (s : string) :
  Forall (λ seg, contains slash seg = false) (split_slash s).
Proof.
  induction s as [|c s IH]; simpl.
  - by constructor.
  - destruct (Ascii.eqb c slash) eqn:Hc.
    + by constructor.
    + destruct (split_slash s) as [|seg rest]; inversion IH; subst;
        constructor; simpl; try rewrite Hc; auto.
Qed.

Lemma ends_with_slash_app (a b : string) :
  is_empty b = false → ends_with_slash (a +:+ b) = ends_with_slash b.
Proof.
  intros Hb. induction a as [|c a IH]; [done|].
  rewrite append_cons. simpl. rewrite IH.
  destruct (a +:+ b) eqn:E; [|done].
  destruct a, b; done.
Qed.

Lemma ends_with_slash_app_slash (a b : string) :
  is_empty b = false →
  ends_with_slash (a +:+ String slash b) = ends_with_slash b.
Proof.
  intros Hb. rewrite ends_with_slash_app by done.
  change (String slash b) with ("/" +:+ b). by apply ends_with_slash_app.
Qed.

Lemma contains_app (c : ascii) (a b : string) :
  contains c (a +:+ b) = contains c a || contains c b.
Proof.
  induction a as [|c' a IH]; [done|].
  rewrite append_cons. simpl. rewrite IH. by rewrite orb_assoc.
Qed.

Lemma ends_with_slash_contains (s : string) :
  contains slash s = false → ends_with_slash s = false.
Proof.
  induction s as [|c s IH]; simpl; [done|].
  intros [Hc Hs]%orb_false_iff. destruct s; [done|]. by apply IH.
Qed.

(** A proper segment survives normalization as it is: it is not empty, not
    ["."], not [".."], and holds no separator. *)
Definition proper (seg : string) : bool :=
  negb (is_empty seg) && negb (String.eqb seg ".")
    && negb (String.eqb seg "..") && negb (contains slash seg).

(** A name of a directory entry: a proper segment without null byte. *)
Definition is_name (seg : string) : bool :=
  proper seg && negb (contains "000"%char seg).

Lemma proper_spec (seg : string) :
  proper seg = true ↔
  seg ≠ "" ∧ seg ≠ "." ∧ seg ≠ ".." ∧ contains slash seg = false.
Proof.
  unfold proper. rewrite !andb_true_iff, !negb_true_iff.
  rewrite !String.eqb_neq.
  split.
  - intros [[[H1 H2] H3] H4]. repeat split; auto. by intros ->.
  - intros (H1 & H2 & H3 & H4). repeat split; auto. by destruct seg.
Qed.

Lemma is_name_proper (seg : string) : is_name seg = true → proper seg = true.
Proof. unfold is_name. by intros [? _]%andb_true_iff. Qed.

Lemma normalize_step_proper (b : bool) (res : list string) (seg : string) :
  proper seg = true → normalize_step b res seg = seg :: res.
Proof.
  intros (H1 & H2 & H3 & _)%proper_spec. unfold normalize_step.
  destruct (decide (seg = "" ∨ seg = ".")) as [[?|?]|_]; [done..|].
  destruct (decide (seg = "..")); done.
Qed.

Lemma normalize_step_keeps (res : list string) (seg : string) :
  Forall (λ s, proper s = true) res → contains slash seg = false →
  Forall (λ s, proper s = true) (normalize_step false res seg).
Proof.
  intros Hres Hseg. unfold normalize_step.
  destruct (decide (seg = "" ∨ seg = ".")) as [_|Hn]; [done|].
  destruct (decide (seg = "..")) as [_|Hdd].
  - destruct res as [|last_seg res']; [done|].
    destruct (decide (last_seg = "..")); [done|]. by inversion Hres.
  - constructor; [|done]. apply proper_spec. naive_solver.
Qed.

Lemma fold_normalize_keeps (segs res : list string) :
  Forall (λ s, proper s = true) res →
  Forall (λ s, contains slash s = false) segs →
  Forall (λ s, proper s = true) (fold_left (normalize_step false) segs res).
Proof.
  revert res. induction segs as [|seg segs IH]; intros res Hres Hsegs; [done|].
  inversion Hsegs; subst. simpl. apply IH; [|done].
  by apply normalize_step_keeps.
Qed.

Lemma fold_normalize_proper (b : bool) (segs res : list string) :
  Forall (λ s, proper s = true) segs →
  fold_left (normalize_step b) segs res = rev segs ++ res.
Proof.
  revert res. induction segs as [|seg segs IH]; intros res Hsegs; [done|].
  inversion Hsegs; subst. simpl.
  rewrite normalize_step_proper by done. rewrite IH by done.
  by rewrite <- app_assoc.
Qed.

(** The walk from the location [start] along the relative path [p]. *)
Definition walk (start : list string) (p : string) : list string :=
  rev (fold_left (normalize_step false) (split_slash p) (rev start)).

(** The absolute path string of a location. *)
Definition render (loc : list string) (trailing : bool) : string :=
  match loc with
  | [] => "/"
  | _ => "/" +:+ join_slash loc +:+ (if trailing then "/" else "")
  end.

Lemma Forall_rev_iff {A} (P : A → Prop) (l : list A) :
  Forall P (rev l) ↔ Forall P l.
Proof.
  split; intros H.
  - rewrite <- (rev_involutive l). by apply List.Forall_rev.
  - by apply List.Forall_rev.
Qed.

Lemma walk_proper (start : list string) (p : string) :
  Forall (λ s, proper s = true) start →
  Forall (λ s, proper s = true) (walk start p).
Proof.
  intros Hs. unfold walk. apply Forall_rev_iff.
  apply fold_normalize_keeps; [by apply Forall_rev_iff|].
  apply split_slash_pieces.
Qed.

Lemma resolve_walk (p : string) : resolve p = walk [] p.
Proof. reflexivity. Qed.

Lemma resolve_proper (p : string) : Forall (λ s, proper s = true) (resolve p).
Proof. rewrite resolve_walk. by apply walk_proper. Qed.

Lemma walk_name (start : list string) (seg : string) :
  proper seg = true → walk start seg = start ++ [seg].
Proof.
  intros Hseg. unfold walk.
  pose proof (proj1 (proper_spec seg) Hseg) as (_ & _ & _ & Hns).
  rewrite split_slash_noslash by done.
  simpl. rewrite normalize_step_proper by done.
  simpl. by rewrite rev_involutive.
Qed.

Lemma join_slash_cons (seg : string) (rest : list string) :
  rest ≠ [] → join_slash (seg :: rest) = seg +:+ String slash (join_slash rest).
Proof. destruct rest; done. Qed.

Lemma split_join_slash (segs : list string) :
  segs ≠ [] → Forall (λ s, contains slash s = false) segs →
  split_slash (join_slash segs) = segs.
Proof.
  induction segs as [|seg rest IH]; [done|]. intros _ Hall.
  inversion Hall; subst.
  destruct rest as [|seg' rest'].
  - simpl. by apply split_slash_noslash.
  - rewrite join_slash_cons by done. rewrite split_slash_app.
    rewrite split_slash_noslash by done. rewrite IH by done. reflexivity.
Qed.

Lemma proper_noslash (segs : list string) :
  Forall (λ s, proper s = true) segs →
  Forall (λ s, contains slash s = false) segs.
Proof.
  intros Hall. eapply Forall_impl; [exact Hall|].
  intros seg Hseg. apply proper_spec in Hseg. by destruct Hseg as (_ & _ & _ & ?).
Qed.

Lemma split_render (loc : list string) (trailing : bool) :
  Forall (λ s, proper s = true) loc →
  ∃ pre post, split_slash (render loc trailing) = pre ++ loc ++ post
    ∧ Forall (λ s, s = "") pre ∧ Forall (λ s, s = "") post.
Proof.
  intros Hloc. destruct loc as [|seg rest].
  - exists [""; ""], []. simpl. auto.
  - unfold render.
    change ("/" +:+ ?x) with ("" +:+ String slash x).
    rewrite split_slash_app.
    destruct trailing.
    + change "/" with (String slash "").
      rewrite split_slash_app, split_join_slash by (done || by apply proper_noslash).
      exists [""], [""]. simpl. auto.
    + replace (join_slash (seg :: rest) +:+ "") with (join_slash (seg :: rest)).
      2:{ generalize (join_slash (seg :: rest)). intros s.
          induction s as [|c s IHs]; [done|]. rewrite append_cons. by f_equal. }
      rewrite split_join_slash by (done || by apply proper_noslash).
      exists [""], []. simpl. rewrite app_nil_r. auto.
Qed.

Lemma fold_normalize_empty (b : bool) (segs res : list string) :
  Forall (λ s, s = "") segs → fold_left (normalize_step b) segs res = res.
Proof.
  revert res. induction segs as [|seg segs IH]; intros res Hall; [done|].
  inversion Hall; subst. simpl. rewrite IH by done.
  unfold normalize_step. by destruct (decide ("" = "" ∨ "" = ".")) as [|[]]; auto.
Qed.

Lemma fold_split_render (loc : list string) (trailing : bool) :
  Forall (λ s, proper s = true) loc →
  fold_left (normalize_step false) (split_slash (render loc trailing)) []
  = rev loc.
Proof.
  intros Hloc.
  destruct (split_render loc trailing Hloc) as (pre & post & -> & Hpre & Hpost).
  rewrite !fold_left_app.
  rewrite (fold_normalize_empty _ post) by done.
  rewrite (fold_normalize_empty _ pre) by done.
  rewrite fold_normalize_proper by done. by rewrite app_nil_r.
Qed.

Lemma resolve_render (loc : list string) (trailing : bool) :
  Forall (λ s, proper s = true) loc → resolve (render loc trailing) = loc.
Proof.
  intros Hloc. unfold resolve, normalizeString.
  rewrite fold_split_render by done. apply rev_involutive.
Qed.

Lemma starts_with_slash_render (loc : list string) (trailing : bool) :
  starts_with_slash (render loc trailing) = true.
Proof. by destruct loc. Qed.

Lemma normalize_absolute (p : string) :
  starts_with_slash p = true →
  normalize p = render (resolve p) (ends_with_slash p).
Proof.
  intros Habs. unfold normalize. destruct p as [|c p]; [done|].
  cbn [is_empty]. rewrite Habs. cbn [negb].
  fold (resolve (String c p)).
  destruct (resolve (String c p)); reflexivity.
Qed.

Lemma join_pair (d b : string) :
  is_empty d = false → is_empty b = false →
  join [d; b] = normalize (d +:+ String slash b).
Proof.
  intros Hd Hb. unfold join.
  rewrite filter_cons_True, filter_cons_True, filter_nil by done.
  cbn [join_slash]. destruct (d +:+ String slash b) eqn:E; [|done].
  by destruct d.
Qed.

(** Joining a relative path to a normalized absolute directory: walk from
    the directory. *)
Lemma join_render (loc : list string) (trailing : bool) (b : string) :
  Forall (λ s, proper s = true) loc → is_empty b = false →
  join [render loc trailing; b] = render (walk loc b) (ends_with_slash b).
Proof.
  intros Hloc Hb.
  rewrite join_pair; [|by destruct loc|done].
  rewrite normalize_absolute.
  2:{ pose proof (starts_with_slash_render loc trailing) as Hs.
      destruct (render loc trailing); done. }
  f_equal.
  - unfold resolve, normalizeString, walk.
    rewrite split_slash_app, fold_left_app, fold_split_render by done.
    reflexivity.
  - by apply ends_with_slash_app_slash.
Qed.

End PathFacts.

(** ** Where the handler stores a chunk *)

Module LayoutFacts.

Import Js path fs Route PathFacts.

Section Layout.

Variable cwd : list string.

(** The location of [public/uploads/chunks] below the working directory. *)
Definition chunks_root : list string :=
  resolve (process_cwd cwd) ++ ["public"; "uploads"; "chunks"].

(** The location of the directory of an upload. *)
Definition dir_loc (filename : string) : list string :=
  walk chunks_root filename.

(** The location of a chunk file. *)
Definition chunk_loc (filename chunkIndex : string) : list string :=
  walk (dir_loc filename) (chunk_name chunkIndex).

Lemma chunks_root_proper : Forall (λ s, proper s = true) chunks_root.
Proof.
  unfold chunks_root. apply Forall_app. split; [apply resolve_proper|].
  repeat constructor.
Qed.

Lemma dir_loc_proper (filename : string) :
  Forall (λ s, proper s = true) (dir_loc filename).
Proof. apply walk_proper, chunks_root_proper. Qed.

Lemma chunk_loc_proper (filename chunkIndex : string) :
  Forall (λ s, proper s = true) (chunk_loc filename chunkIndex).
Proof. apply walk_proper, dir_loc_proper. Qed.

Lemma process_cwd_absolute : starts_with_slash (process_cwd cwd) = true.
Proof. reflexivity. Qed.

Lemma uploadDir_render (filename : string) :
  is_empty filename = false →
  uploadDir_of cwd filename
  = render (dir_loc filename) (ends_with_slash filename).
Proof.
  intros Hf. unfold uploadDir_of, join, dir_loc, chunks_root.
  pose proof process_cwd_absolute as Habs.
  set (pc := process_cwd cwd) in *. clearbody pc.
  rewrite !filter_cons_True, filter_nil by (done || by destruct pc).
  change (join_slash [pc; "public"; "uploads"; "chunks"; filename])
    with (pc +:+ String slash ("public" +:+ String slash
            ("uploads" +:+ String slash ("chunks" +:+ String slash filename)))).
  set (joined := pc +:+ _).
  assert (normalize joined
          = render (walk (resolve pc ++ ["public"; "uploads"; "chunks"]) filename)
              (ends_with_slash filename)) as Hn.
  { rewrite normalize_absolute by (by destruct pc). subst joined. f_equal.
    - unfold resolve, normalizeString, walk.
      rewrite !split_slash_app, !fold_left_app.
      rewrite rev_app_distr, rev_involutive. reflexivity.
    - rewrite !ends_with_slash_app_slash; done. }
  rewrite <- Hn. reflexivity.
Qed.

Lemma chunkPath_render (filename chunkIndex : string) :
  is_empty filename = false →
  chunkPath_of cwd filename chunkIndex
  = render (chunk_loc filename chunkIndex)
      (ends_with_slash (chunk_name chunkIndex)).
Proof.
  intros Hf. unfold chunkPath_of. rewrite uploadDir_render by done.
  apply join_render; [apply dir_loc_proper|reflexivity].
Qed.

Lemma resolve_uploadDir (filename : string) :
  is_empty filename = false →
  resolve (uploadDir_of cwd filename) = dir_loc filename.
Proof.
  intros Hf. rewrite uploadDir_render by done.
  apply resolve_render, dir_loc_proper.
Qed.

Lemma resolve_chunkPath (filename chunkIndex : string) :
  is_empty filename = false →
  resolve (chunkPath_of cwd filename chunkIndex) = chunk_loc filename chunkIndex.
Proof.
  intros Hf. rewrite chunkPath_render by done.
  apply resolve_render, chunk_loc_proper.
Qed.

Lemma proper_chunk_name (chunkIndex : string) :
  contains slash chunkIndex = false → proper (chunk_name chunkIndex) = true.
Proof.
  intros Hc. apply proper_spec. repeat split; done.
Qed.

(** A chunk index without separator names a file right inside the directory
    of the upload. *)
Lemma chunk_loc_plain (filename chunkIndex : string) :
  contains slash chunkIndex = false →
  chunk_loc filename chunkIndex = dir_loc filename ++ [chunk_name chunkIndex].
Proof. intros Hc. apply walk_name. by apply proper_chunk_name. Qed.

Lemma chunk_name_inj (c1 c2 : string) : chunk_name c1 = chunk_name c2 → c1 = c2.
Proof. unfold chunk_name. apply String.app_inj. Qed.

Lemma chunk_loc_plain_inj (filename c1 c2 : string) :
  contains slash c1 = false → contains slash c2 = false →
  chunk_loc filename c1 = chunk_loc filename c2 → c1 = c2.
Proof.
  intros H1 H2. rewrite !chunk_loc_plain by done.
  intros Heq%app_inv_head. apply chunk_name_inj. congruence.
Qed.

(** With a working directory made of proper names, its location is [cwd]. *)
Lemma resolve_process_cwd :
  Forall (λ s, proper s = true) cwd → resolve (process_cwd cwd) = cwd.
Proof.
  intros Hcwd. unfold process_cwd.
  destruct cwd as [|seg rest] eqn:E; [reflexivity|]. rewrite <- E in *.
  assert (cwd ≠ []) as Hne by (by rewrite E).
  unfold resolve, normalizeString.
  change ("/" +:+ ?x) with ("" +:+ String slash x).
  rewrite split_slash_app, split_join_slash by (done || by apply proper_noslash).
  simpl. unfold normalize_step at 2. simpl.
  rewrite fold_normalize_proper by done.
  rewrite app_nil_r. apply rev_involutive.
Qed.

Lemma dir_loc_plain (filename : string) :
  Forall (λ s, proper s = true) cwd → proper filename = true →
  dir_loc filename = cwd ++ ["public"; "uploads"; "chunks"; filename].
Proof.
  intros Hcwd Hf. unfold dir_loc. rewrite walk_name by done.
  unfold chunks_root. rewrite resolve_process_cwd by done.
  by rewrite <- app_assoc.
Qed.

End Layout.

End LayoutFacts.

(** ** The file system calls *)

Module FsFacts.

Import Js path fs PathFacts.

Lemma node_at_cons (files : FileSystem) (loc : list string) :
  loc ≠ [] → node_at files loc = files !! loc.
Proof. by destruct loc. Qed.

Lemma node_at_snoc (files : FileSystem) (loc : list string) (seg : string) :
  node_at files (loc ++ [seg]) = files !! (loc ++ [seg]).
Proof. apply node_at_cons. by destruct loc. Qed.

(** What [mkdir_from] leaves behind: every old entry is kept, every new entry
    is a directory on the way from [above] down [rest], and the whole way
    exists. *)
Lemma mkdir_from_spec (rest : list string) :
  ∀ (files files' : FileSystem) (above : list string),
    mkdir_from files above rest = Some files' →
    (∀ loc n, files !! loc = Some n → files' !! loc = Some n)
    ∧ (∀ loc n, files' !! loc = Some n →
         files !! loc = Some n
         ∨ (n = Dir ∧ ∃ pre, pre ≠ [] ∧ pre `prefix_of` rest ∧ loc = above ++ pre))
    ∧ (∀ pre, pre ≠ [] → pre `prefix_of` rest →
         files' !! (above ++ pre) = Some Dir).
Proof.
  induction rest as [|seg rest IH]; intros files files' above Hmk.
  - simpl in Hmk. injection Hmk as <-. repeat split; auto.
    intros pre Hne Hpre. apply prefix_nil_inv in Hpre. done.
  - simpl in Hmk. rewrite node_at_snoc in Hmk.
    assert (∀ pre, pre ≠ [] → pre `prefix_of` seg :: rest →
            ∃ pre', pre = seg :: pre' ∧ pre' `prefix_of` rest) as Hsplit.
    { intros [|x pre'] Hne Hpre; [done|].
      apply prefix_cons_inv_1 in Hpre as Hx. subst x.
      apply prefix_cons_inv_2 in Hpre. eauto. }
    assert (∀ pre', (above ++ [seg]) ++ pre' = above ++ seg :: pre') as Hassoc.
    { intros pre'. by rewrite <- app_assoc. }
    destruct (files !! (above ++ [seg])) as [[|data]|] eqn:Hd; [|done|].
    + destruct (IH _ _ _ Hmk) as (Hkeep & Hnew & Hway).
      split; [done|]. split.
      * intros loc n Hloc. destruct (Hnew loc n Hloc) as [?|(-> & pre & ? & ? & ->)];
          [by left|right]. split; [done|].
        exists (seg :: pre). rewrite Hassoc. repeat split; [done|].
        by apply prefix_cons.
      * intros pre Hne Hpre. destruct (Hsplit pre Hne Hpre) as (pre' & -> & Hpre').
        destruct pre' as [|x pre''].
        -- by apply Hkeep.
        -- rewrite <- Hassoc. by apply Hway.
    + destruct (IH _ _ _ Hmk) as (Hkeep & Hnew & Hway).
      split; [|split].
      * intros loc n Hloc. apply Hkeep.
        rewrite lookup_insert_ne; [done|]. intros <-. congruence.
      * intros loc n Hloc. destruct (Hnew loc n Hloc) as [Hold|(-> & pre & ? & ? & ->)].
        -- destruct (decide (above ++ [seg] = loc)) as [<-|Hne].
           ++ rewrite lookup_insert_eq in Hold. injection Hold as <-.
              right. split; [done|]. exists [seg]. repeat split; [done|].
              apply prefix_cons, prefix_nil.
           ++ rewrite lookup_insert_ne in Hold by done. by left.
        -- right. split; [done|]. exists (seg :: pre). rewrite Hassoc.
           repeat split; [done|]. by apply prefix_cons.
      * intros pre Hne Hpre. destruct (Hsplit pre Hne Hpre) as (pre' & -> & Hpre').
        destruct pre' as [|x pre''].
        -- apply Hkeep. apply lookup_insert_eq.
        -- rewrite <- Hassoc. by apply Hway.
Qed.

(** On a way that exists, [mkdir_from] changes nothing. *)
Lemma mkdir_from_exists (rest : list string) :
  ∀ (files : FileSystem) (above : list string),
    (∀ pre, pre ≠ [] → pre `prefix_of` rest →
       files !! (above ++ pre) = Some Dir) →
    mkdir_from files above rest = Some files.
Proof.
  induction rest as [|seg rest IH]; intros files above Hway; [done|].
  simpl. rewrite node_at_snoc.
  rewrite (Hway [seg]); [|done|apply prefix_cons, prefix_nil].
  apply IH. intros pre Hne Hpre. rewrite <- app_assoc. apply Hway; [done|].
  by apply prefix_cons.
Qed.

(** Without regular files in the way, [mkdir_from] succeeds. *)
Lemma mkdir_from_no_file (rest : list string) :
  ∀ (files : FileSystem) (above : list string),
    (∀ pre data, pre `prefix_of` rest →
       files !! (above ++ pre) ≠ Some (File data)) →
    is_Some (mkdir_from files above rest).
Proof.
  induction rest as [|seg rest IH]; intros files above Hfree; [by eexists|].
  simpl. rewrite node_at_snoc.
  destruct (files !! (above ++ [seg])) as [[|data]|] eqn:Hd.
  - apply IH. intros pre data Hpre. rewrite <- app_assoc. apply Hfree.
    by apply prefix_cons.
  - exfalso. eapply (Hfree [seg]); [|exact Hd]. apply prefix_cons, prefix_nil.
  - apply IH. intros pre data Hpre.
    destruct (decide (above ++ [seg] = (above ++ [seg]) ++ pre)) as [<-|Hne].
    + by rewrite lookup_insert_eq.
    + rewrite lookup_insert_ne by done. rewrite <- app_assoc. apply Hfree.
      by apply prefix_cons.
Qed.

Lemma writeFile_inv (files files' : FileSystem) (p : string)
    (data : list Byte.byte) :
  writeFile files p data = Some files' →
  valid_path p = true ∧ ends_with_slash p = false ∧ resolve p ≠ []
  ∧ node_at files (removelast (resolve p)) = Some Dir
  ∧ files !! resolve p ≠ Some Dir
  ∧ files' = <[resolve p := File data]> files.
Proof.
  unfold writeFile. intros Hw.
  destruct (valid_path p); [|done].
  destruct (resolve p) as [|seg rest] eqn:Hloc; [done|].
  destruct (ends_with_slash p); [done|].
  destruct (node_at files (removelast (seg :: rest))) as [[|?]|] eqn:Hpar;
    [|done..].
  destruct (files !! (seg :: rest)) as [[|?]|] eqn:Hn; [done|..];
    injection Hw as <-; repeat split; done.
Qed.

Lemma writeFile_intro (files : FileSystem) (p : string)
    (data : list Byte.byte) :
  valid_path p = true → ends_with_slash p = false → resolve p ≠ [] →
  node_at files (removelast (resolve p)) = Some Dir →
  files !! resolve p ≠ Some Dir →
  writeFile files p data = Some (<[resolve p := File data]> files).
Proof.
  unfold writeFile. intros -> -> Hne Hpar Hn.
  destruct (resolve p) as [|seg rest] eqn:Hloc; [done|].
  rewrite Hpar. destruct (files !! (seg :: rest)) as [[|?]|]; done.
Qed.

Lemma removelast_ne {A} (l : list A) : l ≠ [] → removelast l ≠ l.
Proof.
  intros Hne Heq. apply (f_equal (@length A)) in Heq.
  destruct (exists_last Hne) as (l' & x & ->).
  rewrite removelast_last, length_app in Heq. simpl in Heq. lia.
Qed.

(** Last write wins: a second [writeFile] on the same path succeeds and
    replaces the content. *)
Lemma writeFile_again (files files' : FileSystem) (p : string)
    (d1 d2 : list Byte.byte) :
  writeFile files p d1 = Some files' →
  writeFile files' p d2 = Some (<[resolve p := File d2]> files').
Proof.
  intros (Hv & He & Hne & Hpar & Hn & ->)%writeFile_inv.
  apply writeFile_intro; try done.
  - destruct (removelast (resolve p)) as [|seg rest] eqn:E; [done|].
    cbn [node_at] in *. rewrite lookup_insert_ne; [done|].
    rewrite <- E. intros Heq. by apply (removelast_ne (resolve p)).
  - by rewrite lookup_insert_eq.
Qed.

End FsFacts.

(** ** The handler, case by case *)

Module RouteFacts.

Import Js path fs Effect Route PathFacts LayoutFacts FsFacts.

(** The fields of a request as the handler reads them. *)
Definition field_chunk (request : NextRequest) : option FormDataEntryValue :=
  match request_body request with
  | Some formData => formData_get formData "file"
  | None => None
  end.

Definition field (request : NextRequest) (name : string) : string :=
  match request_body request with
  | Some formData => String_or_empty (formData_get formData name)
  | None => ""
  end.

(** The guard of line 13 of the handler. *)
Definition missing (request : NextRequest) : bool :=
  not_ (field_chunk request) || is_empty (field request "chunkIndex")
    || is_empty (field request "totalChunks")
    || is_empty (field request "filename").

Definition success_message (request : NextRequest) : string :=
  "Chunk " +:+ field request "chunkIndex" +:+ " of "
    +:+ field request "totalChunks" +:+ " uploaded successfully".

Definition failed : NextResponse := new_NextResponse "Chunk upload failed" 500.

Section Cases.

Variable cwd : list string.

Lemma handle_no_body (w : World) (request : NextRequest) :
  request_body request = None → handle cwd w request = (w, failed).
Proof.
  intros Hb. unfold handle, POST, POST_try, try_catch, bind, request_formData.
  rewrite Hb. reflexivity.
Qed.

Lemma handle_missing (w : World) (request : NextRequest) :
  is_Some (request_body request) → missing request = true →
  handle cwd w request
  = (w, new_NextResponse "Missing required form data" 400).
Proof.
  intros [formData Hb]. unfold missing, field_chunk, field.
  unfold handle, POST, POST_try, try_catch, bind, request_formData.
  rewrite Hb. cbn [ret]. intros ->. reflexivity.
Qed.

Lemma handle_invalid (w : World) (request : NextRequest) :
  missing request = false →
  isNaN (parseInt (field request "chunkIndex")) = true →
  handle cwd w request = (w, new_NextResponse "Invalid chunk index" 400).
Proof.
  unfold missing, field_chunk, field.
  unfold handle, POST, POST_try, try_catch, bind, request_formData.
  destruct (request_body request) as [formData|]; [|done].
  cbn [ret]. intros -> ->. reflexivity.
Qed.

(** Past the two guards the handler goes to the disk. *)
Lemma handle_storage (w : World) (request : NextRequest) :
  missing request = false →
  isNaN (parseInt (field request "chunkIndex")) = false →
  let uploadDir := uploadDir_of cwd (field request "filename") in
  let chunkPath :=
    chunkPath_of cwd (field request "filename") (field request "chunkIndex") in
  handle cwd w request =
    match mkdir_recursive (files w) uploadDir with
    | None => (mkWorld (files w) (calls w ++ [call_mkdir uploadDir]), failed)
    | Some files1 =>
        match field_chunk request with
        | Some (entry_File bytes) =>
            let log := (calls w ++ [call_mkdir uploadDir])
                         ++ [call_writeFile chunkPath bytes] in
            match writeFile files1 chunkPath bytes with
            | Some files2 =>
                (mkWorld files2 log,
                 NextResponse_json true (success_message request))
            | None => (mkWorld files1 log, failed)
            end
        | _ => (mkWorld files1 (calls w ++ [call_mkdir uploadDir]), failed)
        end
    end.
Proof.
  unfold missing, success_message, field_chunk, field.
  unfold handle, POST, POST_try, try_catch, bind, request_formData.
  destruct (request_body request) as [formData|]; [|done].
  cbn [ret]. intros -> ->. unfold fs_mkdir.
  destruct (mkdir_recursive _ _) as [files1|]; [|done].
  destruct (formData_get formData "file") as [[s|bytes]|]; [done| |done].
  unfold arrayBuffer, ret, fs_writeFile. cbn [files calls].
  destruct (writeFile _ _ _); reflexivity.
Qed.

(** The seven ways in which the handler ends. *)
Inductive Outcome (w : World) (request : NextRequest)
    : World → list FsCall → NextResponse → Prop :=
  | out_no_body :
      request_body request = None →
      Outcome w request w [] failed
  | out_missing :
      is_Some (request_body request) → missing request = true →
      Outcome w request w []
        (new_NextResponse "Missing required form data" 400)
  | out_invalid :
      missing request = false →
      isNaN (parseInt (field request "chunkIndex")) = true →
      Outcome w request w [] (new_NextResponse "Invalid chunk index" 400)
  | out_mkdir_rejects :
      let uploadDir := uploadDir_of cwd (field request "filename") in
      missing request = false →
      isNaN (parseInt (field request "chunkIndex")) = false →
      mkdir_recursive (files w) uploadDir = None →
      Outcome w request
        (mkWorld (files w) (calls w ++ [call_mkdir uploadDir]))
        [call_mkdir uploadDir] failed
  | out_not_a_blob (files1 : FileSystem) :
      let uploadDir := uploadDir_of cwd (field request "filename") in
      missing request = false →
      isNaN (parseInt (field request "chunkIndex")) = false →
      mkdir_recursive (files w) uploadDir = Some files1 →
      (∀ bytes, field_chunk request ≠ Some (entry_File bytes)) →
      Outcome w request
        (mkWorld files1 (calls w ++ [call_mkdir uploadDir]))
        [call_mkdir uploadDir] failed
  | out_writeFile_rejects (files1 : FileSystem) (bytes : list Byte.byte) :
      let uploadDir := uploadDir_of cwd (field request "filename") in
      let chunkPath :=
        chunkPath_of cwd (field request "filename")
          (field request "chunkIndex") in
      let new_calls := [call_mkdir uploadDir; call_writeFile chunkPath bytes] in
      missing request = false →
      isNaN (parseInt (field request "chunkIndex")) = false →
      mkdir_recursive (files w) uploadDir = Some files1 →
      field_chunk request = Some (entry_File bytes) →
      writeFile files1 chunkPath bytes = None →
      Outcome w request (mkWorld files1 (calls w ++ new_calls)) new_calls failed
  | out_accepted (files1 files2 : FileSystem) (bytes : list Byte.byte) :
      let uploadDir := uploadDir_of cwd (field request "filename") in
      let chunkPath :=
        chunkPath_of cwd (field request "filename")
          (field request "chunkIndex") in
      let new_calls := [call_mkdir uploadDir; call_writeFile chunkPath bytes] in
      missing request = false →
      isNaN (parseInt (field request "chunkIndex")) = false →
      mkdir_recursive (files w) uploadDir = Some files1 →
      field_chunk request = Some (entry_File bytes) →
      writeFile files1 chunkPath bytes = Some files2 →
      Outcome w request (mkWorld files2 (calls w ++ new_calls)) new_calls
        (NextResponse_json true (success_message request)).

Lemma handle_outcome (w : World) (request : NextRequest) :
  ∃ new_calls,
    Outcome w request (handle cwd w request).1 new_calls
      (handle cwd w request).2.
Proof.
  destruct (request_body request) as [formData|] eqn:Hb.
  2:{ rewrite handle_no_body by done. eexists. by constructor. }
  destruct (missing request) eqn:Hm.
  { rewrite handle_missing by (done || by eexists).
    eexists. constructor; [by eexists|done]. }
  destruct (isNaN (parseInt (field request "chunkIndex"))) eqn:Hn.
  { rewrite handle_invalid by done. eexists. by constructor. }
  rewrite handle_storage by done. cbv zeta.
  destruct (mkdir_recursive _ _) as [files1|] eqn:Hmk.
  2:{ eexists. by apply out_mkdir_rejects. }
  destruct (field_chunk request) as [[text|bytes]|] eqn:Hc.
  1,3: eexists; eapply out_not_a_blob; try done;
       intros bytes Hbytes; rewrite Hc in Hbytes; discriminate Hbytes.
  rewrite <- app_assoc.
  destruct (writeFile _ _ _) as [files2|] eqn:Hw; eexists.
  - by eapply out_accepted.
  - by eapply out_writeFile_rejects.
Qed.

(** [POST] always ends in a response: nothing escapes its [catch]. *)
Lemma POST_returns (w : World) (request : NextRequest) :
  ∃ w' response, POST cwd request w = (w', Normal response).
Proof.
  unfold POST, try_catch.
  destruct (POST_try cwd request w) as [w1 [response|e]]; by eexists _, _.
Qed.

(** The status is 200, 400 or 500. *)
Lemma handle_status (w : World) (request : NextRequest) :
  let response := (handle cwd w request).2 in
  status response = 200 ∨ status response = 400 ∨ status response = 500.
Proof.
  cbv zeta. destruct (handle_outcome w request) as [new_calls []]; auto.
Qed.

(** What an accepted request is and does. *)
Lemma accepted_inv (w w' : World) (request : NextRequest)
    (response : NextResponse) :
  handle cwd w request = (w', response) → status response = 200 →
  let filename := field request "filename" in
  let chunkIndex := field request "chunkIndex" in
  ∃ bytes files1,
    missing request = false
    ∧ isNaN (parseInt chunkIndex) = false
    ∧ field_chunk request = Some (entry_File bytes)
    ∧ mkdir_recursive (files w) (uploadDir_of cwd filename) = Some files1
    ∧ writeFile files1 (chunkPath_of cwd filename chunkIndex) bytes
      = Some (files w')
    ∧ calls w' = calls w ++ [call_mkdir (uploadDir_of cwd filename);
                             call_writeFile
                               (chunkPath_of cwd filename chunkIndex) bytes]
    ∧ response = NextResponse_json true (success_message request).
Proof.
  intros Hh Hs. destruct (handle_outcome w request) as [new_calls Hout].
  rewrite Hh in Hout. cbn [fst snd] in Hout.
  destruct Hout; try discriminate Hs.
  eexists _, _. repeat split; done.
Qed.

Lemma accepted_intro (w : World) (request : NextRequest)
    (bytes : list Byte.byte) (files1 files2 : FileSystem) :
  missing request = false →
  isNaN (parseInt (field request "chunkIndex")) = false →
  field_chunk request = Some (entry_File bytes) →
  mkdir_recursive (files w)
    (uploadDir_of cwd (field request "filename")) = Some files1 →
  writeFile files1
    (chunkPath_of cwd (field request "filename") (field request "chunkIndex"))
    bytes = Some files2 →
  ∃ log, handle cwd w request
         = (mkWorld files2 log, NextResponse_json true (success_message request)).
Proof.
  intros Hm Hn Hc Hmk Hw. rewrite handle_storage by done. cbn zeta.
  rewrite Hmk, Hc, Hw. by eexists.
Qed.

End Cases.

End RouteFacts.

(** ** Validation, responses and the calls made *)

Module HandlerProperties.

Import Js path fs Effect Route PathFacts LayoutFacts FsFacts RouteFacts.

Lemma handle_POST_try (cwd : list string) (w w1 : World)
    (request : NextRequest) (c : Completion NextResponse) :
  POST_try cwd request w = (w1, c) →
  handle cwd w request
  = (w1, match c with Normal response => response | Throw _ => failed end).
Proof.
  intros Ht. unfold handle, POST, try_catch. rewrite Ht. by destruct c.
Qed.

(** The [try] block throws a [SystemError] exactly when it reaches the disk
    and [fs.mkdir] or [fs.writeFile] rejects. *)
Lemma storage_failure_iff (cwd : list string) (w : World)
    (request : NextRequest) :
  let uploadDir := uploadDir_of cwd (field request "filename") in
  let chunkPath :=
    chunkPath_of cwd (field request "filename") (field request "chunkIndex") in
  (∃ w1, POST_try cwd request w = (w1, Throw SystemError)) ↔
  missing request = false
  ∧ isNaN (parseInt (field request "chunkIndex")) = false
  ∧ (mkdir_recursive (files w) uploadDir = None
     ∨ ∃ files1 bytes,
         mkdir_recursive (files w) uploadDir = Some files1
         ∧ field_chunk request = Some (entry_File bytes)
         ∧ writeFile files1 chunkPath bytes = None).
Proof.
  cbn zeta. unfold missing, field_chunk, field.
  unfold POST_try, bind, request_formData.
  destruct (request_body request) as [formData|].
  2:{ split; [intros [w1 Hw1]|intros [Hm _]]; discriminate. }
  cbn [ret].
  destruct (not_ _ || _ || _ || _).
  { split; [intros [w1 Hw1]|intros [Hm _]]; discriminate. }
  destruct (isNaN _).
  { split; [intros [w1 Hw1]|intros (_ & Hn & _)]; discriminate. }
  unfold fs_mkdir.
  destruct (mkdir_recursive _ _) as [files1|].
  2:{ split; [auto|]. intros _. by eexists. }
  destruct (formData_get formData "file") as [[s|bytes]|].
  - split; [intros [w1 Hw1]; discriminate|].
    intros (_ & _ & [Hmk|(? & ? & _ & Hc & _)]); discriminate.
  - unfold arrayBuffer, ret, fs_writeFile. cbn [files calls].
    destruct (writeFile _ _ _) as [files2|] eqn:Hw.
    + split; [intros [w1 Hw1]; discriminate|].
      intros (_ & _ & [Hmk|(? & ? & Hmk & Hc & Hw')]); [discriminate|].
      congruence.
    + split; [|intros _; by eexists].
      intros _. repeat split. right. by exists files1, bytes.
  - split; [intros [w1 Hw1]; discriminate|].
    intros (_ & _ & [Hmk|(? & ? & _ & Hc & _)]); discriminate.
Qed.

Lemma formData_get_None_missing (request : NextRequest) (formData : FormData) :
  request_body request = Some formData →
  formData_get formData "file" = None
  ∨ formData_get formData "chunkIndex" = None
  ∨ formData_get formData "totalChunks" = None
  ∨ formData_get formData "filename" = None →
  missing request = true.
Proof.
  intros Hb Hnone. unfold missing, field_chunk, field. rewrite Hb.
  destruct Hnone as [-> | [-> | [-> | ->]]]; cbn [not_ String_or_empty is_empty];
    by rewrite ?orb_true_r.
Qed.

(** C6 (amended). The handler always ends in a response, its promise never
    rejects.  A request whose body parses as form data and lacks the chunk
    blob, the [chunkIndex], the [totalChunks] or the [filename] field is
    answered with HTTP 400 ("Missing required form data") and leaves the
    world as it was (no file system change and no file system call).  A
    request whose body does not parse as form data carries none of the
    fields, yet it is the [catch] clause that answers it: HTTP 500, the
    world as it was.  The status is 200 exactly when the body is the JSON
    object with [success: true] and a [message] string.  And when a storage
    call of the [try] block rejects, the [catch] clause answers HTTP 500
    ("Chunk upload failed") in the world that the [try] block left. *)
Theorem post_missing_accept_failure (cwd : list string) (w : World)
    (request : NextRequest) :
  ∃ w' response,
    POST cwd request w = (w', Normal response)
    ∧ (∀ formData,
         request_body request = Some formData →
         formData_get formData "file" = None
         ∨ formData_get formData "chunkIndex" = None
         ∨ formData_get formData "totalChunks" = None
         ∨ formData_get formData "filename" = None →
         w' = w
         ∧ response = new_NextResponse "Missing required form data" 400)
    ∧ (request_body request = None →
       w' = w ∧ response = new_NextResponse "Chunk upload failed" 500)
    ∧ (status response = 200 ↔
       ∃ message, response_body response = body_json true message)
    ∧ (∀ w1, POST_try cwd request w = (w1, Throw SystemError) →
         w' = w1 ∧ response = new_NextResponse "Chunk upload failed" 500).
Proof.
  destruct (POST_returns cwd w request) as (w' & response & HP).
  exists w', response. split; [exact HP|].
  assert (handle cwd w request = (w', response)) as Hh.
  { unfold handle. by rewrite HP. }
  split; [|split; [|split]].
  - intros formData Hb Hnone.
    rewrite handle_missing in Hh
      by (by eexists || by eapply formData_get_None_missing).
    by injection Hh as <- <-.
  - intros Hb. rewrite handle_no_body in Hh by done.
    by injection Hh as <- <-.
  - split.
    + intros Hs. destruct (accepted_inv _ _ _ _ _ Hh Hs)
        as (? & ? & _ & _ & _ & _ & _ & _ & ->).
      by eexists.
    + intros [message Hm].
      destruct (handle_outcome cwd w request) as [new_calls Hout].
      rewrite Hh in Hout. cbn [fst snd] in Hout.
      destruct Hout; done.
  - intros w1 Ht. unfold POST, try_catch in HP. rewrite Ht in HP.
    unfold POST_catch, ret in HP. by injection HP as <- <-.
Qed.

(** Past the guard on the fields, the handler answers 400 only for an index
    that [parseInt] turns into [NaN]. *)
Lemma parsed_index_passes (cwd : list string) (w : World)
    (request : NextRequest) :
  missing request = false →
  isNaN (parseInt (field request "chunkIndex")) = false →
  status (handle cwd w request).2 ≠ 400.
Proof.
  intros Hm Hn. rewrite handle_storage by done. cbn zeta.
  destruct (mkdir_recursive _ _); [|done].
  destruct (field_chunk request) as [[?|?]|]; [done| |done].
  destruct (writeFile _ _ _); done.
Qed.

(** C2 (amended). For a request with the four fields, the handler answers
    HTTP 400 ("Invalid chunk index") and leaves the world as it was when
    [parseInt] of the [chunkIndex] string is [NaN]; for every other
    [chunkIndex] string the answer is not 400, whatever [totalChunks] says:
    the index is not compared with zero or with [totalChunks]. *)
Theorem post_rejects_nan_index_only (cwd : list string) (w : World)
    (request : NextRequest) :
  missing request = false →
  let chunkIdx := parseInt (field request "chunkIndex") in
  (isNaN chunkIdx = true →
   handle cwd w request = (w, new_NextResponse "Invalid chunk index" 400))
  ∧ (isNaN chunkIdx = false → status (handle cwd w request).2 ≠ 400).
Proof.
  intros Hm. split.
  - by apply handle_invalid.
  - by apply parsed_index_passes.
Qed.

(** C7 (amended). The handler keeps no session: the declared [totalChunks]
    is only copied into the message.  Two requests that differ at most in
    their (non-empty) [totalChunks] leave the same world and get the same
    status, so a later chunk that declares another total is treated as if it
    had declared the first one. *)
Theorem totalChunks_is_ignored (cwd : list string) (w : World)
    (request1 request2 : NextRequest) :
  field_chunk request1 = field_chunk request2 →
  field request1 "chunkIndex" = field request2 "chunkIndex" →
  field request1 "filename" = field request2 "filename" →
  is_empty (field request1 "totalChunks") = false →
  is_empty (field request2 "totalChunks") = false →
  (handle cwd w request1).1 = (handle cwd w request2).1
  ∧ status (handle cwd w request1).2 = status (handle cwd w request2).2.
Proof.
  intros Hc Hi Hf Ht1 Ht2.
  assert (missing request1 = missing request2) as Hmiss.
  { unfold missing. by rewrite Hc, Hi, Hf, Ht1, Ht2. }
  assert (is_Some (request_body request1)) as Hb1.
  { unfold field in Ht1. destruct (request_body request1); [by eexists|done]. }
  assert (is_Some (request_body request2)) as Hb2.
  { unfold field in Ht2. destruct (request_body request2); [by eexists|done]. }
  destruct (missing request2) eqn:Hm.
  { by rewrite !handle_missing. }
  destruct (isNaN (parseInt (field request2 "chunkIndex"))) eqn:Hn.
  { rewrite !handle_invalid; try done. by rewrite Hi. }
  rewrite !handle_storage by (done || by rewrite Hi). cbn zeta.
  rewrite Hc, Hi, Hf.
  destruct (mkdir_recursive _ _); [|done].
  destruct (field_chunk request2) as [[?|?]|]; [done| |done].
  destruct (writeFile _ _ _); done.
Qed.

(** The protocol of the spec for a chunk write: the bytes go to a temporary
    path, which is then renamed to the final path. *)
Definition writes_via_rename (log : list FsCall) (final : string)
    (data : list Byte.byte) : Prop :=
  ∃ tmp before between after,
    tmp ≠ final
    ∧ log = before ++ [call_writeFile tmp data] ++ between
              ++ [call_rename tmp final] ++ after.

(** C8 (amended). The handler never calls [fs.rename]: the calls of an
    accepted request are one [fs.mkdir] of the upload directory and one
    [fs.writeFile] of the bytes straight to the final chunk path, where
    they are then found. *)
Theorem chunk_is_written_in_place (cwd : list string) (w : World)
    (request : NextRequest) :
  let '(w', response) := handle cwd w request in
  let uploadDir := uploadDir_of cwd (field request "filename") in
  let chunkPath :=
    chunkPath_of cwd (field request "filename") (field request "chunkIndex") in
  ∃ new_calls,
    calls w' = calls w ++ new_calls
    ∧ (∀ oldPath newPath, call_rename oldPath newPath ∉ new_calls)
    ∧ (status response = 200 →
       ∃ bytes,
         field_chunk request = Some (entry_File bytes)
         ∧ new_calls = [call_mkdir uploadDir; call_writeFile chunkPath bytes]
         ∧ readFile (files w') chunkPath = Some bytes).
Proof.
  destruct (handle cwd w request) as [w' response] eqn:Hh. cbv zeta.
  destruct (handle_outcome cwd w request) as [new_calls Hout].
  rewrite Hh in Hout. cbn [fst snd] in Hout.
  exists new_calls.
  destruct Hout as [| | | | |files1 bytes|files1 files2 bytes ? ? ? ? ? ? ? Hw];
    cbn [calls files]; rewrite ?app_nil_r;
    (split; [reflexivity|]); (split; [|try discriminate]);
    try (intros oldPath newPath Hin;
         repeat (apply elem_of_cons in Hin as [Hin|Hin]; [discriminate Hin|]);
         by apply elem_of_nil in Hin).
  intros _. exists bytes. repeat split; [done|].
  repeat match goal with x := _ |- _ => subst x end.
  apply writeFile_inv in Hw as (Hv & He & _ & _ & _ & ->).
  unfold readFile. rewrite Hv, He. cbn [andb negb]. by rewrite lookup_insert_eq.
Qed.

End HandlerProperties.

(** ** Chunks on the disk: overwriting and naming *)

Module StorageProperties.

Import Js path fs Effect Route PathFacts LayoutFacts FsFacts RouteFacts.

Lemma mkdir_recursive_inv (files files1 : FileSystem) (p : string) :
  mkdir_recursive files p = Some files1 →
  valid_path p = true ∧ mkdir_from files [] (resolve p) = Some files1.
Proof. unfold mkdir_recursive. by destruct (valid_path p). Qed.

Lemma mkdir_recursive_keeps (files files1 : FileSystem) (p : string) :
  mkdir_recursive files p = Some files1 →
  ∀ loc n, files !! loc = Some n → files1 !! loc = Some n.
Proof.
  intros [_ Hmk]%mkdir_recursive_inv.
  by destruct (mkdir_from_spec _ _ _ _ Hmk) as (Hkeep & _).
Qed.

(** Once made, a directory path can be made again in any file system that
    still has its directories, and nothing changes. *)
Lemma mkdir_recursive_again (files files1 files2 : FileSystem) (p : string) :
  mkdir_recursive files p = Some files1 →
  (∀ loc, files1 !! loc = Some Dir → files2 !! loc = Some Dir) →
  mkdir_recursive files2 p = Some files2.
Proof.
  intros [Hv Hmk]%mkdir_recursive_inv Hdirs. unfold mkdir_recursive.
  rewrite Hv. apply mkdir_from_exists. intros pre Hne Hpre.
  apply Hdirs. by destruct (mkdir_from_spec _ _ _ _ Hmk) as (_ & _ & Hway); apply Hway.
Qed.

Lemma missing_false (request : NextRequest) :
  missing request = false →
  not_ (field_chunk request) = false
  ∧ is_empty (field request "chunkIndex") = false
  ∧ is_empty (field request "totalChunks") = false
  ∧ is_empty (field request "filename") = false.
Proof.
  unfold missing. rewrite !orb_false_iff. tauto.
Qed.

Section Storage.

Variable cwd : list string.

(** An accepted chunk is read back from its chunk path. *)
Lemma accepted_read (w w' : World) (request : NextRequest)
    (response : NextResponse) :
  handle cwd w request = (w', response) → status response = 200 →
  ∃ bytes,
    field_chunk request = Some (entry_File bytes)
    ∧ readFile (files w')
        (chunkPath_of cwd (field request "filename")
           (field request "chunkIndex")) = Some bytes.
Proof.
  intros Hh Hs.
  destruct (accepted_inv _ _ _ _ _ Hh Hs)
    as (bytes & files1 & _ & _ & Hc & _ & Hw & _ & _).
  exists bytes. split; [done|].
  apply writeFile_inv in Hw as (Hv & He & _ & _ & _ & ->).
  unfold readFile. rewrite Hv, He. cbn. by rewrite lookup_insert_eq.
Qed.

(** An accepted request leaves every regular file at another location as it
    was. *)
Lemma accepted_keeps (w w' : World) (request : NextRequest)
    (response : NextResponse) (p : string) (data : list Byte.byte) :
  handle cwd w request = (w', response) → status response = 200 →
  readFile (files w) p = Some data →
  resolve p ≠ chunk_loc cwd (field request "filename")
                (field request "chunkIndex") →
  readFile (files w') p = Some data.
Proof.
  intros Hh Hs Hr Hne.
  destruct (accepted_inv _ _ _ _ _ Hh Hs)
    as (bytes & files1 & Hm & _ & _ & Hmk & Hw & _ & _).
  apply missing_false in Hm as (_ & _ & _ & Hf).
  apply writeFile_inv in Hw as (_ & _ & _ & _ & _ & Hw').
  rewrite resolve_chunkPath in Hw' by done.
  unfold readFile in *. destruct (valid_path p && negb (ends_with_slash p)); [|done].
  destruct (files w !! resolve p) as [[|d]|] eqn:Hl; try done.
  rewrite Hw', lookup_insert_ne by done.
  by rewrite (mkdir_recursive_keeps _ _ _ Hmk _ _ Hl).
Qed.

(** C3. When a chunk request has been accepted, a second request for the
    same [filename] and the same [chunkIndex] string is accepted too, the
    file at the chunk path then holds the bytes of the second request (the
    last write wins), and the set of entries of the file system is the same
    as after the first write: no other chunk file appears. *)
Theorem second_write_wins (w w1 : World) (request1 request2 : NextRequest)
    (response1 : NextResponse) (bytes2 : list Byte.byte) :
  handle cwd w request1 = (w1, response1) →
  status response1 = 200 →
  field_chunk request2 = Some (entry_File bytes2) →
  field request2 "chunkIndex" = field request1 "chunkIndex" →
  field request2 "filename" = field request1 "filename" →
  is_empty (field request2 "totalChunks") = false →
  ∃ w2 response2,
    handle cwd w1 request2 = (w2, response2)
    ∧ status response2 = 200
    ∧ readFile (files w2)
        (chunkPath_of cwd (field request1 "filename")
           (field request1 "chunkIndex")) = Some bytes2
    ∧ dom (files w2) = dom (files w1).
Proof.
  intros Hh Hs Hc Hi Hf Ht.
  destruct (accepted_inv _ _ _ _ _ Hh Hs)
    as (bytes1 & files1 & Hm & Hn & _ & Hmk & Hw & _ & _).
  pose proof (missing_false _ Hm) as (_ & Hi1 & _ & Hf1).
  assert (missing request2 = false) as Hm2.
  { unfold missing. by rewrite Hc, Hi, Hf, Ht, Hi1, Hf1. }
  pose proof (writeFile_inv _ _ _ _ Hw) as (Hv & He & Hne & Hpar & Hnd & Hw1).
  assert (mkdir_recursive (files w1) (uploadDir_of cwd (field request2 "filename"))
          = Some (files w1)) as Hmk2.
  { rewrite Hf. eapply mkdir_recursive_again; [exact Hmk|].
    intros loc Hloc. rewrite Hw1. rewrite lookup_insert_ne; [done|].
    intros <-. done. }
  pose proof (writeFile_again _ _ _ _ bytes2 Hw) as Hw2.
  destruct (accepted_intro cwd w1 request2 bytes2 (files w1)
              (<[resolve (chunkPath_of cwd (field request1 "filename")
                            (field request1 "chunkIndex")) := File bytes2]>
                 (files w1)) Hm2) as [log Hh2];
    [by rewrite Hi|done|done|by rewrite Hi, Hf|].
  eexists _, _. split; [exact Hh2|]. split; [done|]. cbn [files]. split.
  - unfold readFile. rewrite Hv, He. cbn. by rewrite lookup_insert_eq.
  - apply dom_insert_lookup_L. rewrite Hw1, lookup_insert_eq. by eexists.
Qed.

Lemma parseInt_Num_not_empty (s : string) (n : Z) :
  parseInt s = Num n → is_empty s = false.
Proof. by destruct s. Qed.

(** C10 (amended). The file name is made of the [chunkIndex] string as it
    was sent, not of its parsed value.  Every [chunkIndex] that [parseInt]
    turns into a number passes the validation: the answer is not 400.  And
    when two requests for the same [filename] carry different [chunkIndex]
    strings without ["/"] that parse to the same integer and both are
    accepted, they are stored in two different files, each with its own
    bytes. *)
Theorem raw_index_names_the_file (w : World) (request1 request2 : NextRequest)
    (bytes1 bytes2 : list Byte.byte) (n : Z) :
  let filename := field request1 "filename" in
  let chunkIndex1 := field request1 "chunkIndex" in
  let chunkIndex2 := field request2 "chunkIndex" in
  field_chunk request1 = Some (entry_File bytes1) →
  field_chunk request2 = Some (entry_File bytes2) →
  is_empty (field request1 "totalChunks") = false →
  is_empty (field request2 "totalChunks") = false →
  is_empty filename = false →
  field request2 "filename" = filename →
  parseInt chunkIndex1 = Num n →
  parseInt chunkIndex2 = Num n →
  chunkIndex1 ≠ chunkIndex2 →
  let '(w1, response1) := handle cwd w request1 in
  let '(w2, response2) := handle cwd w1 request2 in
  status response1 ≠ 400 ∧ status response2 ≠ 400
  ∧ (contains slash chunkIndex1 = false → contains slash chunkIndex2 = false →
     status response1 = 200 → status response2 = 200 →
     chunkPath_of cwd filename chunkIndex1 ≠ chunkPath_of cwd filename chunkIndex2
     ∧ readFile (files w2) (chunkPath_of cwd filename chunkIndex1) = Some bytes1
     ∧ readFile (files w2) (chunkPath_of cwd filename chunkIndex2) = Some bytes2).
Proof.
  intros filename chunkIndex1 chunkIndex2 Hc1 Hc2 Ht1 Ht2 Hf Hf2 Hn1 Hn2 Hne.
  assert (missing request1 = false) as Hm1.
  { unfold missing. fold filename chunkIndex1.
    by rewrite Hc1, Ht1, Hf, (parseInt_Num_not_empty _ _ Hn1). }
  assert (missing request2 = false) as Hm2.
  { unfold missing. fold chunkIndex2.
    by rewrite Hc2, Ht2, Hf2, Hf, (parseInt_Num_not_empty _ _ Hn2). }
  destruct (handle cwd w request1) as [w1 response1] eqn:Hh1.
  destruct (handle cwd w1 request2) as [w2 response2] eqn:Hh2.
  split; [|split].
  - pose proof (HandlerProperties.parsed_index_passes cwd w request1 Hm1) as Hp.
    rewrite Hh1 in Hp. apply Hp. fold chunkIndex1. by rewrite Hn1.
  - pose proof (HandlerProperties.parsed_index_passes cwd w1 request2 Hm2) as Hp.
    rewrite Hh2 in Hp. apply Hp. fold chunkIndex2. by rewrite Hn2.
  - intros Hs1 Hs2 Hst1 Hst2.
    assert (chunk_loc cwd filename chunkIndex1 ≠ chunk_loc cwd filename chunkIndex2)
      as Hloc.
    { intros Heq. by apply Hne, (chunk_loc_plain_inj cwd filename). }
    assert (chunkPath_of cwd filename chunkIndex1
            ≠ chunkPath_of cwd filename chunkIndex2) as Hpath.
    { intros Heq. apply Hloc. rewrite <- !(resolve_chunkPath cwd) by done.
      by rewrite Heq. }
    split; [done|].
    destruct (accepted_read _ _ _ _ Hh1 Hst1) as (b1 & Hb1 & Hr1).
    destruct (accepted_read _ _ _ _ Hh2 Hst2) as (b2 & Hb2 & Hr2).
    rewrite Hc1 in Hb1. rewrite Hc2 in Hb2.
    injection Hb1 as <-. injection Hb2 as <-.
    fold filename chunkIndex1 in Hr1. rewrite Hf2 in Hr2.
    fold chunkIndex2 in Hr2. split; [|done].
    eapply accepted_keeps; [exact Hh2|done|done|].
    rewrite Hf2. fold chunkIndex2. by rewrite resolve_chunkPath.
Qed.

End Storage.

End StorageProperties.

(** ** Decimal numerals and the order of the chunk names *)

Module DecimalFacts.

Import Js PathFacts.

Local Open Scope nat_scope.

(** The number that a list of digits, least significant first, stands for. *)
Fixpoint value (ds : list nat) : nat :=
  match ds with
  | [] => 0
  | d :: ds' => d + 10 * value ds'
  end.

Lemma digits_of_spec (fuel : nat) :
  ∀ n, n < fuel →
    value (digits_of fuel n) = n ∧ Forall (λ d, d < 10) (digits_of fuel n).
Proof.
  induction fuel as [|fuel IH]; intros n Hn; [lia|].
  cbn [digits_of]. destruct (Nat.ltb_spec n 10) as [Hlt|Hge].
  - cbn [value]. split; [lia|]. constructor; [done|constructor].
  - assert (n / 10 < fuel) as Hq.
    { pose proof (Nat.div_lt n 10). lia. }
    destruct (IH _ Hq) as [Hv Hd]. cbn [value]. rewrite Hv. split.
    + pose proof (Nat.div_mod_eq n 10). lia.
    + constructor; [|done]. apply Nat.mod_upper_bound. lia.
Qed.

Lemma value_app (a b : list nat) :
  value (a ++ b) = value a + 10 ^ length a * value b.
Proof.
  induction a as [|d a IH]; [simpl; lia|].
  cbn [app value length]. rewrite IH, Nat.pow_succ_r'. lia.
Qed.

Lemma value_bound (ds : list nat) :
  Forall (λ d, d < 10) ds → value ds < 10 ^ length ds.
Proof.
  induction 1 as [|d ds Hd _ IH]; cbn [value length]; [simpl; lia|].
  rewrite Nat.pow_succ_r'. lia.
Qed.

Lemma digit_char_inj (d1 d2 : nat) :
  d1 < 10 → d2 < 10 → digit_char d1 = digit_char d2 → d1 = d2.
Proof.
  intros H1 H2 Heq. apply (f_equal nat_of_ascii) in Heq.
  unfold digit_char in Heq. rewrite !nat_ascii_embedding in Heq by lia. lia.
Qed.

Lemma digit_char_compare (d1 d2 : nat) :
  d1 < 10 → d2 < 10 →
  Ascii.compare (digit_char d1) (digit_char d2) = Nat.compare d1 d2.
Proof.
  intros H1 H2.
  do 10 (destruct d1 as [|d1];
         [do 10 (destruct d2 as [|d2]; [reflexivity|]); lia|]).
  lia.
Qed.

Lemma digit_char_plain (d : nat) :
  d < 10 →
  Ascii.eqb (digit_char d) slash = false
  ∧ Ascii.eqb (digit_char d) "000"%char = false.
Proof.
  intros Hd. do 10 (destruct d as [|d]; [by split|]). lia.
Qed.

Lemma string_of_digits_inj (l1 l2 : list nat) :
  Forall (λ d, d < 10) l1 → Forall (λ d, d < 10) l2 →
  string_of_digits l1 = string_of_digits l2 → l1 = l2.
Proof.
  intros H1. revert l2. induction H1 as [|d1 l1 Hd1 _ IH];
    intros l2 H2 Heq; destruct H2 as [|d2 l2 Hd2 H2]; try done.
  cbn [string_of_digits] in Heq. injection Heq as Hc Hs.
  f_equal; [by apply digit_char_inj|by apply IH].
Qed.

Lemma string_of_digits_length (ds : list nat) :
  String.length (string_of_digits ds) = length ds.
Proof.
  induction ds as [|d ds IH]; [done|].
  cbn [string_of_digits String.length]. by rewrite IH.
Qed.

Lemma string_of_digits_plain (ds : list nat) :
  Forall (λ d, d < 10) ds →
  contains slash (string_of_digits ds) = false
  ∧ contains "000"%char (string_of_digits ds) = false.
Proof.
  induction 1 as [|d ds Hd _ [IH1 IH2]]; [done|].
  cbn [string_of_digits contains].
  destruct (digit_char_plain d Hd) as [-> ->]. done.
Qed.

(** The digits of [decimal n], most significant first. *)
Definition numeral (n : nat) : list nat := rev (digits_of (S n) n).

Lemma decimal_numeral (n : nat) : decimal n = string_of_digits (numeral n).
Proof. reflexivity. Qed.

Lemma numeral_spec (n : nat) :
  value (rev (numeral n)) = n ∧ Forall (λ d, d < 10) (numeral n).
Proof.
  unfold numeral. rewrite rev_involutive.
  destruct (digits_of_spec (S n) n) as [Hv Hd]; [lia|].
  split; [done|]. by apply Forall_rev_iff.
Qed.

Lemma decimal_inj (i j : nat) : decimal i = decimal j → i = j.
Proof.
  rewrite !decimal_numeral. intros Heq.
  destruct (numeral_spec i) as [Hi Hdi], (numeral_spec j) as [Hj Hdj].
  apply string_of_digits_inj in Heq; [|done..]. congruence.
Qed.

Lemma decimal_plain (n : nat) :
  contains slash (decimal n) = false ∧ contains "000"%char (decimal n) = false.
Proof.
  rewrite decimal_numeral. apply string_of_digits_plain, numeral_spec.
Qed.

(** Numerals of the same length are ordered as the numbers are. *)
Lemma string_of_digits_compare (l1 : list nat) :
  ∀ l2, length l1 = length l2 →
    Forall (λ d, d < 10) l1 → Forall (λ d, d < 10) l2 →
    value (rev l1) < value (rev l2) →
    String.compare (string_of_digits l1) (string_of_digits l2) = Lt.
Proof.
  induction l1 as [|d1 l1 IH]; intros [|d2 l2] Hlen H1 H2 Hlt;
    cbn [length rev value string_of_digits String.compare] in *; try lia.
  inversion H1 as [|? ? Hd1 Hl1]; subst. inversion H2 as [|? ? Hd2 Hl2]; subst.
  rewrite !value_app in Hlt. cbn [value] in Hlt. rewrite !length_rev in Hlt.
  injection Hlen as Hlen. rewrite Hlen in Hlt.
  pose proof (value_bound (rev l1)) as Hb1.
  pose proof (value_bound (rev l2)) as Hb2.
  rewrite length_rev in Hb1, Hb2. rewrite Hlen in Hb1.
  specialize (Hb1 (proj2 (Forall_rev_iff _ _) Hl1)).
  specialize (Hb2 (proj2 (Forall_rev_iff _ _) Hl2)).
  rewrite digit_char_compare by done.
  destruct (Nat.compare_spec d1 d2) as [->|Hd|Hd].
  - apply IH; try done. lia.
  - done.
  - exfalso. nia.
Qed.

Lemma decimal_compare (i j : nat) :
  i < j → String.length (decimal i) = String.length (decimal j) →
  String.compare (decimal i) (decimal j) = Lt.
Proof.
  rewrite !decimal_numeral, !string_of_digits_length. intros Hlt Hlen.
  destruct (numeral_spec i) as [Hi Hdi], (numeral_spec j) as [Hj Hdj].
  apply string_of_digits_compare; try done. lia.
Qed.

Lemma numeral_not_nil (n : nat) : numeral n ≠ [].
Proof.
  unfold numeral. cbn [digits_of]. destruct (n <? 10); [done|].
  intros Heq. apply (f_equal (@length nat)) in Heq.
  rewrite length_rev in Heq. simpl in Heq. lia.
Qed.

(** [parseInt] reads a decimal numeral as a number. *)
Lemma parseInt_string_of_digits (d : nat) (ds : list nat) :
  d < 10 → Forall (λ d, d < 10) ds →
  isNaN (parseInt (string_of_digits (d :: ds))) = false.
Proof.
  intros Hd Hds. cbn [string_of_digits].
  destruct ds as [|d' ds'].
  - do 10 (destruct d as [|d]; [reflexivity|]). lia.
  - inversion Hds as [|? ? Hd' _]; subst. cbn [string_of_digits].
    generalize (string_of_digits ds'). intros rest.
    do 10 (destruct d as [|d];
           [do 10 (destruct d' as [|d']; [reflexivity|]); lia|]).
    lia.
Qed.

Lemma parseInt_decimal (n : nat) : isNaN (parseInt (decimal n)) = false.
Proof.
  rewrite decimal_numeral. pose proof (numeral_not_nil n) as Hne.
  destruct (numeral_spec n) as [_ Hd].
  destruct (numeral n) as [|d ds]; [done|].
  inversion Hd; subst. by apply parseInt_string_of_digits.
Qed.

End DecimalFacts.

Module LayoutProperties.

Import Js path fs Route PathFacts LayoutFacts DecimalFacts.

Local Open Scope nat_scope.

(** C4 (amended). With a working directory and a file name that are plain
    names, the chunk of index [i] is the file [chunk-<i>] of the directory
    [public/uploads/chunks/<filename>]: one directory per file name, one
    file per index.  The name of chunk [i] sorts before the name of chunk
    [j], in the order of the code units, when [i < j] and both indices have
    the same number of decimal digits. *)
Theorem chunk_layout_and_order (cwd : list string) (filename : string)
    (i j : nat) :
  Forall (λ s, proper s = true) cwd → proper filename = true →
  resolve (uploadDir_of cwd filename)
    = cwd ++ ["public"; "uploads"; "chunks"; filename]
  ∧ resolve (chunkPath_of cwd filename (decimal i))
    = cwd ++ ["public"; "uploads"; "chunks"; filename; chunk_name (decimal i)]
  ∧ (i ≠ j → chunk_name (decimal i) ≠ chunk_name (decimal j))
  ∧ (i < j → String.length (decimal i) = String.length (decimal j) →
     String.ltb (chunk_name (decimal i)) (chunk_name (decimal j)) = true).
Proof.
  intros Hcwd Hf.
  assert (is_empty filename = false) as Hne.
  { apply proper_spec in Hf. destruct Hf as [Hf _]. by destruct filename. }
  split; [|split; [|split]].
  - rewrite resolve_uploadDir by done. by apply dir_loc_plain.
  - rewrite resolve_chunkPath by done.
    rewrite chunk_loc_plain by apply decimal_plain.
    rewrite dir_loc_plain by done. by rewrite <- app_assoc.
  - intros Hij Heq. by apply Hij, decimal_inj, chunk_name_inj.
  - intros Hlt Hlen. unfold String.ltb.
    change (String.compare (chunk_name (decimal i)) (chunk_name (decimal j)))
      with (String.compare (decimal i) (decimal j)).
    by rewrite decimal_compare.
Qed.

End LayoutProperties.

(** ** Requests that the disk accepts *)

Module AcceptFacts.

Import Js path fs Effect Route PathFacts LayoutFacts FsFacts RouteFacts.
Import StorageProperties.

Lemma append_nil_r (s : string) : s +:+ "" = s.
Proof. induction s as [|c s IH]; [done|]. rewrite append_cons. by f_equal. Qed.

Lemma join_slash_not_empty (segs : list string) :
  segs ≠ [] → Forall (λ s, proper s = true) segs →
  is_empty (join_slash segs) = false.
Proof.
  intros Hne Hall. destruct segs as [|seg rest]; [done|].
  inversion Hall as [|? ? Hseg _]; subst.
  apply proper_spec in Hseg as (Hseg & _).
  destruct rest; [by destruct seg|].
  rewrite join_slash_cons by done. by destruct seg.
Qed.

Lemma ends_with_slash_join (segs : list string) :
  segs ≠ [] → Forall (λ s, proper s = true) segs →
  ends_with_slash (join_slash segs) = false.
Proof.
  induction segs as [|seg rest IH]; [done|]. intros _ Hall.
  inversion Hall as [|? ? Hseg Hrest]; subst.
  destruct rest as [|seg' rest'].
  - apply ends_with_slash_contains. apply proper_spec in Hseg. tauto.
  - rewrite join_slash_cons by done.
    rewrite ends_with_slash_app_slash by (by apply join_slash_not_empty).
    by apply IH.
Qed.

Lemma ends_with_slash_render (loc : list string) :
  loc ≠ [] → Forall (λ s, proper s = true) loc →
  ends_with_slash (render loc false) = false.
Proof.
  intros Hne Hall. unfold render. destruct loc as [|seg rest]; [done|].
  rewrite append_nil_r.
  rewrite ends_with_slash_app by (by apply join_slash_not_empty).
  by apply ends_with_slash_join.
Qed.

Lemma contains_join_slash (c : ascii) (segs : list string) :
  Ascii.eqb slash c = false →
  Forall (λ s, contains c s = false) segs →
  contains c (join_slash segs) = false.
Proof.
  intros Hc. induction 1 as [|seg rest Hseg Hrest IH]; [done|].
  destruct rest as [|seg' rest']; [done|].
  rewrite join_slash_cons by done. rewrite contains_app, Hseg.
  cbn [contains orb]. by rewrite Hc, IH.
Qed.

Lemma valid_path_render (loc : list string) (trailing : bool) :
  Forall (λ s, contains "000"%char s = false) loc →
  valid_path (render loc trailing) = true.
Proof.
  intros Hall. unfold valid_path, render. apply negb_true_iff.
  destruct loc as [|seg rest]; [done|].
  rewrite !contains_app, contains_join_slash by done.
  by destruct trailing.
Qed.

Section Accept.

Variable cwd : list string.

(** The world is clear for an upload when nothing stands in the way of its
    directory and of the chunk file of a request: no regular file on the way
    down to the directory, no directory where the chunk goes. *)
Definition clear_for (files : FileSystem) (filename chunkIndex : string)
    : Prop :=
  (∀ pre data, pre `prefix_of` dir_loc cwd filename →
     files !! pre ≠ Some (File data))
  ∧ files !! (dir_loc cwd filename ++ [chunk_name chunkIndex]) ≠ Some Dir.

(** A chunk request with a parsed index without separator, to a world that
    is clear for it and with paths free of null bytes, is accepted: the
    directory is made and the chunk is written. *)
Lemma accepted_when_clear (w : World) (request : NextRequest)
    (bytes : list Byte.byte) :
  let filename := field request "filename" in
  let chunkIndex := field request "chunkIndex" in
  missing request = false →
  isNaN (parseInt chunkIndex) = false →
  field_chunk request = Some (entry_File bytes) →
  contains slash chunkIndex = false →
  Forall (λ s, contains "000"%char s = false)
    (dir_loc cwd filename ++ [chunk_name chunkIndex]) →
  clear_for (files w) filename chunkIndex →
  ∃ files1 log,
    mkdir_recursive (files w) (uploadDir_of cwd filename) = Some files1
    ∧ handle cwd w request
      = (mkWorld (<[dir_loc cwd filename ++ [chunk_name chunkIndex]
                    := File bytes]> files1) log,
         NextResponse_json true (success_message request)).
Proof.
  intros filename chunkIndex Hm Hn Hc Hs Hnul [Hway Hfree].
  pose proof (missing_false _ Hm) as (_ & _ & _ & Hf). fold filename in Hf.
  apply Forall_app in Hnul as [Hnul_dir Hnul_chunk].
  assert (valid_path (uploadDir_of cwd filename) = true) as Hv1.
  { rewrite uploadDir_render by done. by apply valid_path_render. }
  assert (resolve (chunkPath_of cwd filename chunkIndex)
          = dir_loc cwd filename ++ [chunk_name chunkIndex]) as Hloc.
  { rewrite resolve_chunkPath by done. by apply chunk_loc_plain. }
  assert (chunkPath_of cwd filename chunkIndex
          = render (dir_loc cwd filename ++ [chunk_name chunkIndex]) false)
    as Hpath.
  { rewrite chunkPath_render by done. rewrite chunk_loc_plain by done.
    f_equal. apply ends_with_slash_contains.
    apply (proper_chunk_name) in Hs. apply proper_spec in Hs. tauto. }
  assert (Forall (λ s, proper s = true)
            (dir_loc cwd filename ++ [chunk_name chunkIndex])) as Hproper.
  { apply Forall_app. split; [apply dir_loc_proper|].
    constructor; [by apply proper_chunk_name|constructor]. }
  destruct (mkdir_from_no_file (dir_loc cwd filename) (files w) [])
    as [files1 Hmk].
  { intros pre data Hpre. by apply Hway. }
  assert (mkdir_recursive (files w) (uploadDir_of cwd filename) = Some files1)
    as Hmk'.
  { unfold mkdir_recursive. by rewrite Hv1, resolve_uploadDir. }
  destruct (mkdir_from_spec _ _ _ _ Hmk) as (_ & Hnew & Hmade).
  assert (writeFile files1 (chunkPath_of cwd filename chunkIndex) bytes
          = Some (<[dir_loc cwd filename ++ [chunk_name chunkIndex]
                    := File bytes]> files1)) as Hw.
  { rewrite <- Hloc. apply writeFile_intro.
    - rewrite Hpath. apply valid_path_render. apply Forall_app. by split.
    - rewrite Hpath. apply ends_with_slash_render; [|done].
      by destruct (dir_loc cwd filename).
    - rewrite Hloc. by destruct (dir_loc cwd filename).
    - rewrite Hloc, removelast_last.
      destruct (dir_loc cwd filename) as [|seg rest] eqn:E; [done|].
      cbn [node_at]. by apply (Hmade (seg :: rest)).
    - rewrite Hloc. intros Hd.
      destruct (Hnew _ _ Hd) as [Hold|(_ & pre & _ & Hpre & Heq)]; [done|].
      cbn [app] in Heq. subst pre. apply prefix_length in Hpre.
      rewrite length_app in Hpre. simpl in Hpre. lia. }
  destruct (accepted_intro cwd w request bytes files1 _ Hm Hn Hc Hmk' Hw)
    as [log Hh].
  by exists files1, log.
Qed.

End Accept.

End AcceptFacts.

(** ** The file name is not confined *)

Module TraversalProperties.

Import Js path fs Effect Route PathFacts LayoutFacts FsFacts RouteFacts.
Import StorageProperties AcceptFacts.

Lemma field_chunk_request (bytes : list Byte.byte)
    (chunkIndex totalChunks filename : string) :
  let request := chunk_request bytes chunkIndex totalChunks filename in
  field_chunk request = Some (entry_File bytes)
  ∧ field request "chunkIndex" = chunkIndex
  ∧ field request "totalChunks" = totalChunks
  ∧ field request "filename" = filename.
Proof. done. Qed.

Lemma missing_chunk_request (bytes : list Byte.byte)
    (chunkIndex totalChunks filename : string) :
  missing (chunk_request bytes chunkIndex totalChunks filename)
  = is_empty chunkIndex || is_empty totalChunks || is_empty filename.
Proof. done. Qed.

Lemma dir_loc_parent (cwd : list string) :
  Forall (λ s, proper s = true) cwd →
  dir_loc cwd "../evil" = cwd ++ ["public"; "uploads"; "evil"].
Proof.
  intros Hcwd. unfold dir_loc, walk, chunks_root.
  rewrite resolve_process_cwd by done.
  rewrite rev_app_distr. simpl. rewrite rev_involutive.
  by rewrite <- !app_assoc.
Qed.

(** C9. The [filename] field goes into [path.join] as it is.  For the file
    name ["../evil"], whatever the working directory (made of plain names)
    and the bytes, the request is accepted on an empty disk and the chunk is
    written at [public/uploads/evil/chunk-0], a location that is not below
    [public/uploads/chunks]. *)
Theorem filename_escapes_chunks_directory (cwd : list string)
    (bytes : list Byte.byte) :
  Forall (λ s, is_name s = true) cwd →
  ∃ filename,
    ".." ∈ split_slash filename
    ∧ let '(w', response) :=
        handle cwd empty_world (chunk_request bytes "0" "1" filename) in
      let loc := resolve (chunkPath_of cwd filename "0") in
      status response = 200
      ∧ files w' !! loc = Some (File bytes)
      ∧ loc = cwd ++ ["public"; "uploads"; "evil"; "chunk-0"]
      ∧ ¬ (cwd ++ ["public"; "uploads"; "chunks"]) `prefix_of` loc.
Proof.
  intros Hcwd. exists "../evil". split.
  { apply elem_of_cons. by left. }
  assert (Forall (λ s, proper s = true) cwd) as Hproper.
  { eapply Forall_impl; [exact Hcwd|]. apply is_name_proper. }
  assert (Forall (λ s, contains "000"%char s = false) cwd) as Hnul.
  { eapply Forall_impl; [exact Hcwd|]. intros s Hs. unfold is_name in Hs.
    apply andb_true_iff in Hs as [_ Hs]. by apply negb_true_iff in Hs. }
  set (request := chunk_request bytes "0" "1" "../evil").
  assert (Forall (λ s, contains "000"%char s = false)
            (dir_loc cwd (field request "filename")
               ++ [chunk_name (field request "chunkIndex")])) as Hfree.
  { change (field request "filename") with "../evil".
    change (field request "chunkIndex") with "0".
    rewrite dir_loc_parent by done. rewrite <- app_assoc.
    apply Forall_app. split; [done|]. by repeat constructor. }
  assert (clear_for cwd (files empty_world) (field request "filename")
            (field request "chunkIndex")) as Hclear.
  { unfold clear_for, empty_world. cbn [files].
    split; intros; by rewrite lookup_empty. }
  destruct (accepted_when_clear cwd empty_world request bytes
              eq_refl eq_refl eq_refl eq_refl Hfree Hclear)
    as (files1 & log & Hmk & Hh).
  rewrite Hh. cbn zeta.
  change (field request "filename") with "../evil" in *.
  change (field request "chunkIndex") with "0" in *.
  assert (resolve (chunkPath_of cwd "../evil" "0")
          = cwd ++ ["public"; "uploads"; "evil"; "chunk-0"]) as Hloc.
  { rewrite resolve_chunkPath by done. rewrite chunk_loc_plain by done.
    rewrite dir_loc_parent by done. by rewrite <- app_assoc. }
  rewrite Hloc. split; [done|]. split; [|split; [done|]].
  - cbn [files]. rewrite dir_loc_parent by done. rewrite <- app_assoc.
    apply lookup_insert_eq.
  - intros Hpre%prefix_app_inv.
    apply prefix_cons_inv_2, prefix_cons_inv_2, prefix_cons_inv_1 in Hpre.
    discriminate.
Qed.

End TraversalProperties.

(** ** The size ceiling *)

Module CeilingProperties.

Import Js path fs Effect Route PathFacts LayoutFacts FsFacts RouteFacts.
Import StorageProperties FileUpload.

(** What the form keeps true: the selected file and the files already
    posted are within the ceiling. *)
Definition within_ceiling (st : State) : Prop :=
  (∀ f, file st = Some f → size f ≤ MAX_FILE_SIZE)
  ∧ Forall (λ f, size f ≤ MAX_FILE_SIZE) (posted st).

Lemma step_within_ceiling (st : State) (ev : Event) :
  within_ceiling st → within_ceiling (step st ev).
Proof.
  intros [Hfile Hposted]. destruct ev as [acceptedFiles|response|]; cbn [step].
  - unfold onDrop. destruct acceptedFiles as [|selectedFile rest]; [by split|].
    destruct (Z.ltb_spec MAX_FILE_SIZE (size selectedFile)) as [Hbig|Hok].
    + by split.
    + split; [|done]. cbn [setFile file]. intros f Hf. by injection Hf as <-.
  - unfold handleUpload.
    assert (within_ceiling st) as Hst by (by split).
    destruct (file st) as [f|] eqn:Hf; [|done].
    assert (Forall (λ f, size f ≤ MAX_FILE_SIZE) (posted st ++ [f])) as Hsent.
    { apply Forall_app. split; [done|]. constructor; [by apply Hfile|constructor]. }
    destruct response as [[imageUrl raw]|]; split; done.
  - by split.
Qed.

Lemma run_within_ceiling (events : list Event) (st : State) :
  within_ceiling st → within_ceiling (fold_left step events st).
Proof.
  revert st. induction events as [|ev events IH]; intros st Hst; [done|].
  apply IH. by apply step_within_ceiling.
Qed.

(** The answer to a request that reaches the disk does not depend on the
    bytes of the chunk. *)
Lemma writeFile_any_data (files : FileSystem) (p : string)
    (d1 d2 : list Byte.byte) :
  is_Some (writeFile files p d1) → is_Some (writeFile files p d2).
Proof.
  intros [files' (Hv & He & Hne & Hpar & Hnd & _)%writeFile_inv].
  eexists. by apply writeFile_intro.
Qed.

(** C5 (amended). The ceiling of 1 GiB is enforced by the form only.
    [onDrop] answers a selected file above [MAX_FILE_SIZE] with the toast
    "File too large" and does not select it, so after any sequence of events
    every file that the form has posted is at most [MAX_FILE_SIZE] long.
    The chunk endpoint checks no size: the status that it gives to a chunk
    request does not depend on the bytes of the chunk. *)
Theorem ceiling_is_enforced_by_the_form_only (events : list Event)
    (st : State) (selectedFile : JsFile) (others : list JsFile)
    (cwd : list string) (w : World) (bytes bytes' : list Byte.byte)
    (chunkIndex totalChunks filename : string) :
  (MAX_FILE_SIZE < size selectedFile →
   onDrop (selectedFile :: others) st
   = Normal (setToast "File too large" "Maximum file size is 1GB." st)
   ∧ file (step st (Drop (selectedFile :: others))) = file st)
  ∧ Forall (λ f, size f ≤ MAX_FILE_SIZE) (posted (run events))
  ∧ status (handle cwd w
              (chunk_request bytes chunkIndex totalChunks filename)).2
    = status (handle cwd w
                (chunk_request bytes' chunkIndex totalChunks filename)).2.
Proof.
  split; [|split].
  - intros Hbig. cbn [step]. unfold onDrop.
    apply Z.ltb_lt in Hbig. by rewrite Hbig.
  - apply (run_within_ceiling events initial). split; [done|constructor].
  - set (r := chunk_request bytes chunkIndex totalChunks filename).
    set (r' := chunk_request bytes' chunkIndex totalChunks filename).
    destruct (missing r) eqn:Hm.
    { rewrite !handle_missing; done || by eexists. }
    destruct (isNaN (parseInt (field r "chunkIndex"))) eqn:Hn.
    { by rewrite !handle_invalid. }
    rewrite !handle_storage by done. cbn zeta.
    change (field r' "filename") with (field r "filename").
    change (field r' "chunkIndex") with (field r "chunkIndex").
    destruct (mkdir_recursive _ _) as [files1|]; [|done].
    change (field_chunk r) with (Some (entry_File bytes)).
    change (field_chunk r') with (Some (entry_File bytes')).
    set (p := chunkPath_of cwd (field r "filename") (field r "chunkIndex")).
    assert (is_Some (writeFile files1 p bytes)
            ↔ is_Some (writeFile files1 p bytes')) as Hiff.
    { split; apply writeFile_any_data. }
    cbv beta iota zeta.
    destruct (writeFile files1 p bytes) as [files2|];
      destruct (writeFile files1 p bytes') as [files2'|]; try done.
    + destruct Hiff as [Hiff _].
      destruct Hiff as [? Hs]; [by eexists|discriminate Hs].
    + destruct Hiff as [_ Hiff].
      destruct Hiff as [? Hs]; [by eexists|discriminate Hs].
Qed.

End CeilingProperties.

(** ** The merge gives the file back *)

Module AssemblyProperties.

Import Js path fs Effect Route PathFacts LayoutFacts FsFacts RouteFacts.
Import StorageProperties AcceptFacts TraversalProperties DecimalFacts Assembly.

(** The chunk requests of one upload: chunk [i] of the file carries the
    decimal numeral of [i] as its [chunkIndex]. *)
Definition upload_requests (chunks : list (list Byte.byte))
    (totalChunks filename : string) : list NextRequest :=
  imap (λ i bytes, chunk_request bytes (decimal i) totalChunks filename) chunks.

Section Assembly.

Variable cwd : list string.
Variable chunks : list (list Byte.byte).
Variables totalChunks filename : string.

(** A request of this upload. *)
Definition of_upload (request : NextRequest) : Prop :=
  ∃ i bytes,
    request = chunk_request bytes (decimal i) totalChunks filename
    ∧ chunks !! i = Some bytes.

Lemma serve_cons (w : World) (request : NextRequest)
    (rest : list NextRequest) :
  serve cwd w (request :: rest)
  = let '(w1, response) := handle cwd w request in
    let '(w2, responses) := serve cwd w1 rest in
    (w2, response :: responses).
Proof. reflexivity. Qed.

(** After accepted requests of the upload, in any order and any number of
    times, the chunk of every index that was sent, or was there before, is
    read back from its chunk path. *)
Lemma serve_reads (requests : list NextRequest) :
  ∀ (w w' : World) (responses : list NextResponse),
    serve cwd w requests = (w', responses) →
    Forall (λ response, status response = 200) responses →
    Forall of_upload requests →
    ∀ i bytes,
      chunks !! i = Some bytes →
      chunk_request bytes (decimal i) totalChunks filename ∈ requests
      ∨ readFile (files w) (chunkPath_of cwd filename (decimal i)) = Some bytes →
      readFile (files w') (chunkPath_of cwd filename (decimal i)) = Some bytes.
Proof.
  induction requests as [|request rest IH];
    intros w w' responses Hserve Hok Hup i bytes Hi Hsent.
  - injection Hserve as <- <-. destruct Hsent as [Hin|Hr]; [|done].
    by apply elem_of_nil in Hin.
  - rewrite serve_cons in Hserve.
    destruct (handle cwd w request) as [w1 response] eqn:Hh.
    destruct (serve cwd w1 rest) as [w2 responses'] eqn:Hrest.
    injection Hserve as <- <-.
    inversion Hok as [|? ? Hs Hok']; subst.
    inversion Hup as [|? ? (j & bytes' & -> & Hj) Hup']; subst.
    apply (IH _ _ _ Hrest Hok' Hup' i bytes Hi).
    destruct (decide (j = i)) as [->|Hne].
    + right. assert (bytes' = bytes) as -> by congruence.
      destruct (accepted_read cwd _ _ _ _ Hh Hs) as (b & Hb & Hr).
      injection Hb as <-. exact Hr.
    + destruct Hsent as [[Heq|Hin]%elem_of_cons|Hr].
      * exfalso. apply Hne. injection Heq as _ Hd. symmetry. by apply decimal_inj.
      * by left.
      * right. eapply accepted_keeps; [exact Hh|done|done|].
        destruct (accepted_inv cwd _ _ _ _ Hh Hs)
          as (_ & _ & Hm & _ & _ & _ & _ & _ & _).
        apply missing_false in Hm as (_ & _ & _ & Hf).
        change (field _ "filename") with filename in *.
        change (field _ "chunkIndex") with (decimal j).
        rewrite resolve_chunkPath by done.
        intros Heq. apply Hne. symmetry. apply decimal_inj.
        apply (chunk_loc_plain_inj cwd filename); [apply decimal_plain..|done].
Qed.

(** Reading the chunks in index order gives them back one after the
    other. *)
Lemma assemble_from_reads (files : FileSystem) :
  (∀ i bytes, chunks !! i = Some bytes →
     readFile files (chunkPath_of cwd filename (decimal i)) = Some bytes) →
  ∀ count next,
    (next + count = length chunks)%nat →
    assemble_from cwd files filename next count
    = Some (concat (drop next chunks)).
Proof.
  intros Hread. induction count as [|count IH]; intros next Hlen.
  - cbn [assemble_from]. rewrite drop_ge by lia. reflexivity.
  - destruct (lookup_lt_is_Some_2 chunks next) as [bytes Hb]; [lia|].
    cbn [assemble_from]. unfold ChunkStore_read.
    rewrite (Hread _ _ Hb). cbn [mbind option_bind].
    rewrite IH by lia. cbn [mbind option_bind].
    by rewrite (drop_S _ _ _ Hb).
Qed.

(** Nothing on the disk stands in the way of the upload. *)
Definition clear_for_upload (files : FileSystem) : Prop :=
  (∀ pre data, pre `prefix_of` dir_loc cwd filename →
     files !! pre ≠ Some (File data))
  ∧ (∀ i, files !! (dir_loc cwd filename ++ [chunk_name (decimal i)])
          ≠ Some Dir).

(** On such a disk, in particular on an empty one, every request of the
    upload is accepted, in whatever order they come. *)
Lemma uploads_accepted_when_clear (requests : list NextRequest) :
  is_empty filename = false → is_empty totalChunks = false →
  Forall (λ s, contains "000"%char s = false) (dir_loc cwd filename) →
  ∀ (w w' : World) (responses : list NextResponse),
    clear_for_upload (files w) →
    Forall of_upload requests →
    serve cwd w requests = (w', responses) →
    Forall (λ response, status response = 200) responses.
Proof.
  intros Hf Ht Hnul.
  induction requests as [|request rest IH];
    intros w w' responses [Hway Hfree] Hup Hserve.
  - injection Hserve as <- <-. constructor.
  - rewrite serve_cons in Hserve.
    inversion Hup as [|? ? (j & bytes & -> & Hj) Hup']; subst.
    set (request := chunk_request bytes (decimal j) totalChunks filename) in *.
    destruct (decimal_plain j) as [Hslash Hnul_j].
    destruct (accepted_when_clear cwd w request bytes)
      as (files1 & log & Hmk & Hh).
    { unfold request. rewrite missing_chunk_request, Hf, Ht.
      pose proof (parseInt_decimal j) as Hp. by destruct (decimal j). }
    { apply parseInt_decimal. }
    { done. }
    { done. }
    { apply Forall_app. split; [done|]. by repeat constructor. }
    { split; [done|apply Hfree]. }
    change (field request "filename") with filename in *.
    change (field request "chunkIndex") with (decimal j) in *.
    rewrite Hh in Hserve.
    destruct (serve cwd _ rest) as [w2 responses'] eqn:Hrest.
    injection Hserve as <- <-. constructor; [done|].
    refine (IH _ _ _ _ Hup' Hrest).
    apply mkdir_recursive_inv in Hmk as [_ Hmk].
    rewrite resolve_uploadDir in Hmk by done.
    destruct (mkdir_from_spec _ _ _ _ Hmk) as (_ & Hnew & _).
    cbn [files]. split.
    + intros pre data Hpre.
      rewrite lookup_insert_ne.
      2:{ intros <-. apply prefix_length in Hpre.
          rewrite length_app in Hpre. simpl in Hpre. lia. }
      intros Hl. destruct (Hnew _ _ Hl) as [Hold|[Hd _]]; [|done].
      by apply (Hway pre data).
    + intros i. destruct (decide (j = i)) as [->|Hne].
      * by rewrite lookup_insert_eq.
      * rewrite lookup_insert_ne.
        2:{ intros Heq%app_inv_head. apply Hne, decimal_inj, chunk_name_inj.
            congruence. }
        intros Hl. destruct (Hnew _ _ Hl) as [Hold|(_ & pre & _ & Hpre & Heq)].
        -- by apply (Hfree i).
        -- cbn [app] in Heq. subst pre. apply prefix_length in Hpre.
           rewrite length_app in Hpre. simpl in Hpre. lia.
Qed.


(** On a disk that is clear for the upload nothing has to be assumed about
    the responses: every request is accepted and the merge gives the file
    back. *)
Lemma assembly_on_clear_disk (w w' : World) (requests : list NextRequest)
    (responses : list NextResponse) :
  is_empty filename = false → is_empty totalChunks = false →
  Forall (λ s, contains "000"%char s = false) (dir_loc cwd filename) →
  clear_for_upload (files w) →
  (∀ request, request ∈ requests
     ↔ request ∈ upload_requests chunks totalChunks filename) →
  serve cwd w requests = (w', responses) →
  Forall (λ response, status response = 200) responses
  ∧ assemble cwd (files w') filename (length chunks) = Some (concat chunks).
Proof.
  intros Hf Ht Hnul Hclear Hcover Hserve.
  assert (Forall of_upload requests) as Hup.
  { apply Forall_forall. intros request Hin.
    apply Hcover, elem_of_lookup_imap in Hin as (j & b & -> & Hj).
    by exists j, b. }
  pose proof (uploads_accepted_when_clear requests Hf Ht Hnul w w' responses
                Hclear Hup Hserve) as Hok.
  split; [done|]. unfold assemble.
  rewrite assemble_from_reads; [done| |done].
  intros i bytes Hi.
  apply (serve_reads requests w w' responses Hserve Hok Hup i bytes Hi).
  left. apply Hcover, elem_of_lookup_imap. by exists i, bytes.
Qed.

End Assembly.

End AssemblyProperties.

(** * Scenarios *)

Module Scenarios.

Import Js path fs Effect Route PathFacts LayoutFacts FsFacts RouteFacts.
Import HandlerProperties StorageProperties DecimalFacts LayoutProperties.
Import AcceptFacts TraversalProperties CeilingProperties FileUpload.
Import Assembly AssemblyProperties.

Definition cwd0 : list string := ["srv"; "app"].

Definition b1 : list Byte.byte := [Byte.x01].
Definition b2 : list Byte.byte := [Byte.x02; Byte.x03].

Lemma handle_pair (w : World) (request : NextRequest) :
  handle cwd0 w request
  = ((handle cwd0 w request).1, (handle cwd0 w request).2).
Proof. by destruct (handle cwd0 w request). Defined.

(** *** C1 *)


Lemma serve_pair (w : World) (requests : list NextRequest) :
  serve cwd0 w requests
  = ((serve cwd0 w requests).1, (serve cwd0 w requests).2).
Proof. by destruct (serve cwd0 w requests). Defined.


(** *** C2 *)

(** Index 5 of 3 chunks: answered 200 and stored as [chunk-5]. *)
Lemma out_of_range_index_is_stored :
  let request := chunk_request b1 "5" "3" "a.bin" in
  parseInt "5" = Num 5 ∧ parseInt "3" = Num 3 ∧ ¬ (0 ≤ 5 < 3)
  ∧ status (handle cwd0 empty_world request).2 = 200
  ∧ readFile (files (handle cwd0 empty_world request).1)
      "/srv/app/public/uploads/chunks/a.bin/chunk-5" = Some b1.
Proof.
  cbv zeta. split; [reflexivity|]. split; [reflexivity|]. split; [lia|].
  split; vm_compute; reflexivity.
Qed.

(** The index ["abc"] is refused and nothing is touched; the index ["5"] of
    3 chunks is not refused. *)
Lemma post_rejects_nan_index_only_witness :
  handle cwd0 empty_world (chunk_request b1 "abc" "3" "a.bin")
  = (empty_world, new_NextResponse "Invalid chunk index" 400)
  ∧ status (handle cwd0 empty_world (chunk_request b1 "5" "3" "a.bin")).2 ≠ 400.
Proof.
  split.
  - apply (post_rejects_nan_index_only cwd0 empty_world
             (chunk_request b1 "abc" "3" "a.bin")); reflexivity.
  - apply (post_rejects_nan_index_only cwd0 empty_world
             (chunk_request b1 "5" "3" "a.bin")); reflexivity.
Defined.

(** *** C3 *)

(** Chunk 0 sent twice, first with [b1], then with [b2]. *)
Lemma second_write_wins_witness :
  let request1 := chunk_request b1 "0" "2" "a.bin" in
  let request2 := chunk_request b2 "0" "2" "a.bin" in
  let w1 := (handle cwd0 empty_world request1).1 in
  ∃ w2 response2,
    handle cwd0 w1 request2 = (w2, response2)
    ∧ status response2 = 200
    ∧ readFile (files w2) (chunkPath_of cwd0 "a.bin" "0") = Some b2
    ∧ dom (files w2) = dom (files w1).
Proof.
  cbv zeta.
  apply (second_write_wins cwd0 empty_world
           (handle cwd0 empty_world (chunk_request b1 "0" "2" "a.bin")).1
           (chunk_request b1 "0" "2" "a.bin")
           (chunk_request b2 "0" "2" "a.bin")
           (handle cwd0 empty_world (chunk_request b1 "0" "2" "a.bin")).2 b2).
  - apply handle_pair.
  - vm_compute. reflexivity.
  - reflexivity.
  - reflexivity.
  - reflexivity.
  - reflexivity.
Defined.

(** *** C4 *)

(** Index 2 is below index 10, yet ["chunk-10"] sorts before ["chunk-2"]. *)
Lemma chunk_10_sorts_before_chunk_2 :
  (2 < 10)%nat
  ∧ chunk_name (decimal 2) = "chunk-2"
  ∧ chunk_name (decimal 10) = "chunk-10"
  ∧ String.ltb (chunk_name (decimal 2)) (chunk_name (decimal 10)) = false
  ∧ String.ltb (chunk_name (decimal 10)) (chunk_name (decimal 2)) = true.
Proof. split; [lia|]. repeat split; vm_compute; reflexivity. Qed.

(** The chunks 3 and 7 of [a.bin]. *)
Lemma chunk_layout_and_order_witness :
  resolve (uploadDir_of cwd0 "a.bin")
    = ["srv"; "app"; "public"; "uploads"; "chunks"; "a.bin"]
  ∧ resolve (chunkPath_of cwd0 "a.bin" (decimal 3))
    = ["srv"; "app"; "public"; "uploads"; "chunks"; "a.bin"; "chunk-3"]
  ∧ chunk_name (decimal 3) ≠ chunk_name (decimal 7)
  ∧ String.ltb (chunk_name (decimal 3)) (chunk_name (decimal 7)) = true.
Proof.
  destruct (chunk_layout_and_order cwd0 "a.bin" 3 7) as (Hdir & Hchunk & Hne & Hlt).
  - repeat constructor.
  - reflexivity.
  - split; [exact Hdir|]. split; [exact Hchunk|]. split.
    + apply Hne. lia.
    + apply Hlt; [lia|reflexivity].
Defined.

(** *** C5 *)

(** A chunk of one byte more than the ceiling. *)
Definition oversized : list Byte.byte :=
  repeat Byte.x00 (Z.to_nat (MAX_FILE_SIZE + 1)).

(** On an empty disk, chunk 0 of [big.bin] is accepted whatever its
    bytes. *)
Lemma small_request_accepted (bytes : list Byte.byte) :
  let request := chunk_request bytes "0" "1" "big.bin" in
  status (handle cwd0 empty_world request).2 = 200
  ∧ readFile (files (handle cwd0 empty_world request).1)
      "/srv/app/public/uploads/chunks/big.bin/chunk-0" = Some bytes.
Proof. cbv zeta. split; vm_compute; reflexivity. Qed.

(** One chunk of 1 GiB and one byte: answered 200 and stored. *)
Lemma oversized_chunk_is_accepted :
  let request := chunk_request oversized "0" "1" "big.bin" in
  MAX_FILE_SIZE < Z.of_nat (length oversized)
  ∧ status (handle cwd0 empty_world request).2 = 200
  ∧ readFile (files (handle cwd0 empty_world request).1)
      "/srv/app/public/uploads/chunks/big.bin/chunk-0" = Some oversized.
Proof.
  cbv zeta. split.
  - unfold oversized. rewrite repeat_length, Z2Nat.id; unfold MAX_FILE_SIZE; lia.
  - apply small_request_accepted.
Qed.

(** A file of 2 GiB is refused by the form, a file of 10 bytes is selected
    and posted. *)
Lemma ceiling_is_enforced_by_the_form_only_witness :
  let big := mkFile "big.bin" (2 * MAX_FILE_SIZE) in
  let small := mkFile "small.bin" 10 in
  onDrop [big] initial
  = Normal (setToast "File too large" "Maximum file size is 1GB." initial)
  ∧ posted (run [Drop [big]; ClickUpload None; Drop [small]; ClickUpload None])
    = [small].
Proof.
  cbv zeta. split.
  - apply (ceiling_is_enforced_by_the_form_only []
             initial (mkFile "big.bin" (2 * MAX_FILE_SIZE)) []
             cwd0 empty_world b1 b2 "0" "1" "a.bin").
    reflexivity.
  - reflexivity.
Defined.

(** The same with chunks of ordinary size: 1025 chunks of one mebibyte. *)
Definition mebibyte : list Byte.byte := repeat Byte.x00 (Z.to_nat (1024 * 1024)).

Definition total_size (chunks : list (list Byte.byte)) : Z :=
  foldr (λ bytes acc, Z.of_nat (length bytes) + acc) 0 chunks.

Lemma total_size_repeat (bytes : list Byte.byte) (n : nat) :
  total_size (repeat bytes n) = Z.of_nat n * Z.of_nat (length bytes).
Proof.
  induction n as [|n IH]; [done|].
  cbn [repeat total_size foldr]. fold (total_size (repeat bytes n)).
  rewrite IH. lia.
Qed.

(** All 1025 requests are accepted, for 1025 MiB in total. *)
Lemma many_chunks_exceed_the_ceiling :
  let chunks := repeat mebibyte 1025 in
  let requests := upload_requests chunks "1025" "big.bin" in
  Forall (λ response, status response = 200)
    (serve cwd0 empty_world requests).2
  ∧ MAX_FILE_SIZE < total_size chunks.
Proof.
  cbv zeta. split.
  - apply (uploads_accepted_when_clear cwd0 (repeat mebibyte 1025) "1025"
             "big.bin" (upload_requests (repeat mebibyte 1025) "1025" "big.bin")
             eq_refl eq_refl) with (w := empty_world)
            (w' := (serve cwd0 empty_world
                      (upload_requests (repeat mebibyte 1025) "1025" "big.bin")).1).
    + vm_compute. repeat constructor.
    + split; intros; unfold empty_world; cbn [files]; by rewrite lookup_empty.
    + apply Forall_forall. intros request Hin.
      apply elem_of_lookup_imap in Hin as (j & b & -> & Hj). by exists j, b.
    + apply serve_pair.
  - rewrite total_size_repeat. unfold mebibyte.
    rewrite repeat_length, Z2Nat.id by lia. unfold MAX_FILE_SIZE. lia.
Qed.

(** *** C6 *)

Definition no_index : NextRequest :=
  mkRequest (Some [("file", entry_File b1);
                   ("totalChunks", entry_string "3");
                   ("filename", entry_string "a.bin")]).

(** A request that is no form data at all, such as a JSON body: it carries
    none of the four fields and is answered 500, not 400. *)
Lemma request_without_form_data_is_answered_500 :
  let request := mkRequest None in
  request_body request = None
  ∧ POST cwd0 request empty_world
    = (empty_world, Normal (new_NextResponse "Chunk upload failed" 500))
  ∧ status (handle cwd0 empty_world request).2 = 500
  ∧ status (handle cwd0 empty_world request).2 ≠ 400.
Proof. cbv zeta. repeat split. intros H. discriminate H. Qed.

Lemma POST_try_pair (w : World) (request : NextRequest) :
  POST_try cwd0 request w
  = ((POST_try cwd0 request w).1, (POST_try cwd0 request w).2).
Proof. by destruct (POST_try cwd0 request w). Defined.

(** A request without [chunkIndex]: 400, and the world is as before.  An
    accepted request: a JSON body.  A [chunkIndex] that ends with a
    separator: [fs.writeFile] rejects, 500 from the [catch] clause. *)
Lemma post_missing_accept_failure_witness :
  POST cwd0 no_index empty_world
  = (empty_world, Normal (new_NextResponse "Missing required form data" 400))
  ∧ (∃ w' response message,
       POST cwd0 (chunk_request b1 "0" "1" "a.bin") empty_world
       = (w', Normal response)
       ∧ response_body response = body_json true message)
  ∧ (POST cwd0 (chunk_request b1 "0/" "1" "a.bin") empty_world).2
    = Normal (new_NextResponse "Chunk upload failed" 500).
Proof.
  split; [|split].
  - destruct (post_missing_accept_failure cwd0 empty_world no_index)
      as (w' & response & HP & Hmissing & _).
    destruct (Hmissing _ eq_refl (or_intror (or_introl eq_refl))) as [Hw Hr].
    rewrite HP, Hw, Hr. reflexivity.
  - destruct (post_missing_accept_failure cwd0 empty_world
                (chunk_request b1 "0" "1" "a.bin"))
      as (w' & response & HP & _ & _ & Haccept & _).
    exists w', response.
    assert (status response = 200) as Hs.
    { assert (response
              = (handle cwd0 empty_world
                   (chunk_request b1 "0" "1" "a.bin")).2) as ->.
      { unfold handle. by rewrite HP. }
      vm_compute. reflexivity. }
    destruct (proj1 Haccept Hs) as [message Hm].
    exists message. split; [exact HP|exact Hm].
  - destruct (post_missing_accept_failure cwd0 empty_world
                (chunk_request b1 "0/" "1" "a.bin"))
      as (w' & response & HP & _ & _ & _ & Hfailure).
    destruct (Hfailure (POST_try cwd0 (chunk_request b1 "0/" "1" "a.bin")
                          empty_world).1) as [Hw Hr].
    { rewrite (POST_try_pair empty_world (chunk_request b1 "0/" "1" "a.bin"))
        at 1.
      apply f_equal. vm_compute. reflexivity. }
    rewrite HP, Hr. reflexivity.
Defined.

(** *** C7 *)

(** Chunk 0 declares 3 chunks, chunk 1 of the same file declares 5: both
    are answered 200 and the second is stored. *)
Lemma other_total_is_accepted :
  let first := chunk_request b1 "0" "3" "a.bin" in
  let later := chunk_request b2 "1" "5" "a.bin" in
  let w1 := (handle cwd0 empty_world first).1 in
  parseInt "3" = Num 3 ∧ parseInt "5" = Num 5
  ∧ status (handle cwd0 empty_world first).2 = 200
  ∧ status (handle cwd0 w1 later).2 = 200
  ∧ readFile (files (handle cwd0 w1 later).1)
      "/srv/app/public/uploads/chunks/a.bin/chunk-1" = Some b2.
Proof. cbv zeta. repeat split; vm_compute; reflexivity. Qed.

(** The same chunk declared as one of 3 and as one of 5. *)
Lemma totalChunks_is_ignored_witness :
  let request1 := chunk_request b1 "1" "3" "a.bin" in
  let request2 := chunk_request b1 "1" "5" "a.bin" in
  (handle cwd0 empty_world request1).1 = (handle cwd0 empty_world request2).1
  ∧ status (handle cwd0 empty_world request1).2
    = status (handle cwd0 empty_world request2).2.
Proof.
  apply (totalChunks_is_ignored cwd0 empty_world
           (chunk_request b1 "1" "3" "a.bin")
           (chunk_request b1 "1" "5" "a.bin")); reflexivity.
Defined.

(** *** C8 *)

(** The calls of an accepted request: a [mkdir] and a [writeFile] to the
    final path, which is not the protocol with a temporary path and a
    rename. *)
Lemma chunk_write_is_not_a_rename :
  let request := chunk_request b1 "0" "1" "a.bin" in
  let final := "/srv/app/public/uploads/chunks/a.bin/chunk-0" in
  status (handle cwd0 empty_world request).2 = 200
  ∧ chunkPath_of cwd0 "a.bin" "0" = final
  ∧ calls (handle cwd0 empty_world request).1
    = [call_mkdir "/srv/app/public/uploads/chunks/a.bin";
       call_writeFile final b1]
  ∧ ¬ writes_via_rename (calls (handle cwd0 empty_world request).1) final b1.
Proof.
  cbv zeta.
  assert (calls (handle cwd0 empty_world (chunk_request b1 "0" "1" "a.bin")).1
          = [call_mkdir "/srv/app/public/uploads/chunks/a.bin";
             call_writeFile "/srv/app/public/uploads/chunks/a.bin/chunk-0" b1])
    as Hcalls by (vm_compute; reflexivity).
  split; [vm_compute; reflexivity|]. split; [vm_compute; reflexivity|].
  split; [exact Hcalls|]. rewrite Hcalls.
  intros (tmp & before & between & after & _ & Hlog).
  assert (call_rename tmp "/srv/app/public/uploads/chunks/a.bin/chunk-0"
          ∈ [call_mkdir "/srv/app/public/uploads/chunks/a.bin";
             call_writeFile "/srv/app/public/uploads/chunks/a.bin/chunk-0" b1])
    as Hin.
  { rewrite Hlog. rewrite !elem_of_app. right. right. right. left.
    apply list_elem_of_singleton. reflexivity. }
  rewrite !elem_of_cons, elem_of_nil in Hin.
  destruct Hin as [Hin|[Hin|[]]]; discriminate Hin.
Qed.

(** The calls of chunk 0 of [a.bin] on an empty disk, and the chunk read
    back. *)
Lemma chunk_is_written_in_place_witness :
  let request := chunk_request b1 "0" "1" "a.bin" in
  ∃ bytes,
    field_chunk request = Some (entry_File bytes)
    ∧ calls (handle cwd0 empty_world request).1
      = [call_mkdir (uploadDir_of cwd0 "a.bin");
         call_writeFile (chunkPath_of cwd0 "a.bin" "0") bytes]
    ∧ readFile (files (handle cwd0 empty_world request).1)
        (chunkPath_of cwd0 "a.bin" "0") = Some bytes.
Proof.
  cbv zeta.
  pose proof (chunk_is_written_in_place cwd0 empty_world
                (chunk_request b1 "0" "1" "a.bin")) as H.
  rewrite (handle_pair empty_world (chunk_request b1 "0" "1" "a.bin")) in H.
  cbv zeta in H. destruct H as (new_calls & Hlog & _ & Haccepted).
  destruct Haccepted as (bytes & Hchunk & Hcalls & Hread).
  { vm_compute. reflexivity. }
  exists bytes. split; [exact Hchunk|]. split; [|exact Hread].
  rewrite Hlog, Hcalls. reflexivity.
Defined.

(** *** C9 *)

(** From [/srv/app], the file name ["../evil"] leads to
    [/srv/app/public/uploads/evil/chunk-0]. *)
Lemma filename_escapes_chunks_directory_witness :
  ∃ filename,
    ".." ∈ split_slash filename
    ∧ let '(w', response) :=
        handle cwd0 empty_world (chunk_request b1 "0" "1" filename) in
      let loc := resolve (chunkPath_of cwd0 filename "0") in
      status response = 200
      ∧ files w' !! loc = Some (File b1)
      ∧ loc = cwd0 ++ ["public"; "uploads"; "evil"; "chunk-0"]
      ∧ ¬ (cwd0 ++ ["public"; "uploads"; "chunks"]) `prefix_of` loc.
Proof.
  apply (filename_escapes_chunks_directory cwd0 b1).
  repeat constructor.
Defined.

(** *** C10 *)

(** The indices ["7"] and ["7/."] differ and both parse to 7, and they
    name the same file: the second request replaces the bytes of the
    first. *)
Lemma index_with_separator_shares_the_file :
  let request1 := chunk_request b1 "7" "9" "a.bin" in
  let request2 := chunk_request b2 "7/." "9" "a.bin" in
  let w1 := (handle cwd0 empty_world request1).1 in
  let w2 := (handle cwd0 w1 request2).1 in
  parseInt "7" = Num 7 ∧ parseInt "7/." = Num 7 ∧ "7" ≠ "7/."
  ∧ status (handle cwd0 empty_world request1).2 = 200
  ∧ status (handle cwd0 w1 request2).2 = 200
  ∧ chunkPath_of cwd0 "a.bin" "7" = chunkPath_of cwd0 "a.bin" "7/."
  ∧ readFile (files w2) (chunkPath_of cwd0 "a.bin" "7") = Some b2.
Proof.
  cbv zeta. split; [reflexivity|]. split; [reflexivity|]. split; [done|].
  repeat split; vm_compute; reflexivity.
Qed.

(** The indices ["7"] and ["07"]: both pass, and there are two files. *)
Lemma raw_index_names_the_file_witness :
  let request1 := chunk_request b1 "7" "9" "a.bin" in
  let request2 := chunk_request b2 "07" "9" "a.bin" in
  let w1 := (handle cwd0 empty_world request1).1 in
  let w2 := (handle cwd0 w1 request2).1 in
  chunkPath_of cwd0 "a.bin" "7" ≠ chunkPath_of cwd0 "a.bin" "07"
  ∧ readFile (files w2) (chunkPath_of cwd0 "a.bin" "7") = Some b1
  ∧ readFile (files w2) (chunkPath_of cwd0 "a.bin" "07") = Some b2.
Proof.
  cbv zeta.
  pose proof (raw_index_names_the_file cwd0 empty_world
                (chunk_request b1 "7" "9" "a.bin")
                (chunk_request b2 "07" "9" "a.bin") b1 b2 7
                eq_refl eq_refl eq_refl eq_refl eq_refl eq_refl eq_refl eq_refl)
    as H.
  cbv zeta in H.
  rewrite (handle_pair empty_world (chunk_request b1 "7" "9" "a.bin")) in H.
  rewrite (handle_pair _ (chunk_request b2 "07" "9" "a.bin")) in H.
  destruct H as (_ & _ & H); [discriminate|].
  apply H; vm_compute; reflexivity.
Defined.

End Scenarios.

(** * More on the chunk endpoint *)

Module HandlerFrame.

Import Js path fs Effect Route PathFacts LayoutFacts FsFacts RouteFacts.
Import StorageProperties.

Lemma mkdir_recursive_new (files files1 : FileSystem) (p : string) :
  mkdir_recursive files p = Some files1 →
  ∀ loc n, files1 !! loc = Some n → files !! loc = Some n ∨ n = Dir.
Proof.
  intros [_ Hmk]%mkdir_recursive_inv loc n Hloc.
  destruct (mkdir_from_spec _ _ _ _ Hmk) as (_ & Hnew & _).
  destruct (Hnew _ _ Hloc) as [?|[? _]]; auto.
Qed.

(** [fs.mkdir] changes what no [fs.readFile] can see. *)
Lemma mkdir_recursive_readFile (files files1 : FileSystem) (p q : string) :
  mkdir_recursive files p = Some files1 →
  readFile files1 q = readFile files q.
Proof.
  intros Hmk. unfold readFile.
  destruct (valid_path q && negb (ends_with_slash q)); [|done].
  destruct (files !! resolve q) as [n|] eqn:Hq.
  - by rewrite (mkdir_recursive_keeps _ _ _ Hmk _ _ Hq).
  - destruct (files1 !! resolve q) as [n|] eqn:Hq1; [|done].
    destruct (mkdir_recursive_new _ _ _ Hmk _ _ Hq1) as [?| ->]; [congruence|done].
Qed.

Ltac unlet := repeat match goal with x := _ |- _ => subst x end.

Section Frame.

Variable cwd : list string.

(** Whatever the request and its outcome, a regular file that is not the
    chunk file of an accepted request reads as before. *)
Lemma handle_readFile_other (w : World) (request : NextRequest) (p : string) :
  (status (handle cwd w request).2 = 200 →
   resolve p ≠ resolve (chunkPath_of cwd (field request "filename")
                          (field request "chunkIndex"))) →
  readFile (files (handle cwd w request).1) p = readFile (files w) p.
Proof.
  destruct (handle_outcome cwd w request) as [new_calls Hout].
  destruct Hout as [| | | |files1 ? ? ? Hmk|files1 bytes ? ? ? ? ? Hmk
                    |files1 files2 bytes ? ? ? ? ? Hmk ? Hw];
    unlet; cbn [files]; intros Hother; try done.
  - by apply (mkdir_recursive_readFile _ _ _ _ Hmk).
  - by apply (mkdir_recursive_readFile _ _ _ _ Hmk).
  - apply writeFile_inv in Hw as (_ & _ & _ & _ & _ & ->).
    rewrite <- (mkdir_recursive_readFile _ _ _ p Hmk).
    unfold readFile. destruct (valid_path p && negb (ends_with_slash p)); [|done].
    rewrite lookup_insert_ne; [done|]. intros Heq. by apply Hother.
Qed.

(** X1. The handler removes nothing and touches no other file: whatever
    the request, an entry of the file system is still there afterwards, a
    directory as a directory and a regular file with its bytes; the one
    exception is the regular file at the chunk path of an accepted request,
    which then holds the bytes of the request. *)
Theorem post_keeps_entries (w : World) (request : NextRequest)
    (loc : list string) (n : Node) :
  files w !! loc = Some n →
  let '(w', response) := handle cwd w request in
  files w' !! loc = Some n
  ∨ (status response = 200
     ∧ loc = resolve (chunkPath_of cwd (field request "filename")
                        (field request "chunkIndex"))
     ∧ ∃ old bytes,
         n = File old
         ∧ field_chunk request = Some (entry_File bytes)
         ∧ files w' !! loc = Some (File bytes)).
Proof.
  intros Hloc.
  destruct (handle cwd w request) as [w' response] eqn:Hh.
  destruct (handle_outcome cwd w request) as [new_calls Hout].
  rewrite Hh in Hout. cbn [fst snd] in Hout.
  destruct Hout as [| | | |files1 ? ? ? Hmk|files1 bytes ? ? ? ? ? Hmk
                    |files1 files2 bytes ? ? ? ? ? Hmk Hc Hw];
    unlet; cbn [files]; auto.
  - left. by apply (mkdir_recursive_keeps _ _ _ Hmk).
  - left. by apply (mkdir_recursive_keeps _ _ _ Hmk).
  - pose proof (mkdir_recursive_keeps _ _ _ Hmk _ _ Hloc) as Hloc1.
    apply writeFile_inv in Hw as (_ & _ & _ & _ & Hnd & ->).
    set (chunk := resolve _) in *.
    destruct (decide (chunk = loc)) as [<-|Hne].
    + right. split; [done|]. split; [done|].
      destruct n as [|old]; [done|].
      exists old, bytes. by rewrite lookup_insert_eq.
    + left. by rewrite lookup_insert_ne.
Qed.


(** X3. Uploads under different plain file names do not touch each other:
    a request for the file name [f] with a [chunkIndex] without separator,
    whatever its outcome, leaves every chunk of another file name [g] as it
    was. *)
Theorem other_upload_is_untouched (w : World) (request : NextRequest)
    (g chunkIndex' : string) :
  let f := field request "filename" in
  proper f = true → proper g = true → f ≠ g →
  contains slash (field request "chunkIndex") = false →
  contains slash chunkIndex' = false →
  readFile (files (handle cwd w request).1) (chunkPath_of cwd g chunkIndex')
  = readFile (files w) (chunkPath_of cwd g chunkIndex').
Proof.
  intros f Hf Hg Hfg Hc Hc'. apply handle_readFile_other. intros _.
  assert (∀ name, proper name = true → is_empty name = false) as Hne.
  { intros name Hn. apply proper_spec in Hn as [Hn _]. by destruct name. }
  rewrite !resolve_chunkPath by auto. rewrite !chunk_loc_plain by done.
  unfold dir_loc. rewrite !walk_name by done. fold f.
  rewrite <- !app_assoc. intros Heq%app_inv_head. cbn [app] in Heq.
  congruence.
Qed.

(** X4. The answer is 400 exactly when the body is form data and either a
    field is missing or empty or [parseInt] of [chunkIndex] is [NaN]; then
    the file system and the log of calls are as before. *)
Theorem status_400_iff (w : World) (request : NextRequest) :
  let '(w', response) := handle cwd w request in
  (status response = 400 ↔
   is_Some (request_body request)
   ∧ (missing request = true
      ∨ isNaN (parseInt (field request "chunkIndex")) = true))
  ∧ (status response = 400 → w' = w).
Proof.
  destruct (handle cwd w request) as [w' response] eqn:Hh.
  destruct (handle_outcome cwd w request) as [new_calls Hout].
  rewrite Hh in Hout. cbn [fst snd] in Hout.
  assert (missing request = false → is_Some (request_body request)) as Hbody.
  { intros Hm. apply missing_false in Hm as (_ & Hi & _).
    unfold field in Hi. destruct (request_body request); [by eexists|done]. }
  destruct Hout as [Hb| | | | | |]; unlet; (split; [split|]); try done;
    try (intros _; split; [auto|]; auto; fail);
    try (intros [_ [Hm|Hn]]; congruence).
  intros [[? Hb'] _]. congruence.
Qed.

(** X5. Sending an accepted request once more changes nothing on the disk:
    it is accepted again with the same answer, and the file system is the
    one that the first request left. *)
Theorem retry_changes_nothing (w w1 : World) (request : NextRequest)
    (response : NextResponse) :
  handle cwd w request = (w1, response) → status response = 200 →
  ∃ w2,
    handle cwd w1 request = (w2, response)
    ∧ files w2 = files w1.
Proof.
  intros Hh Hs.
  destruct (accepted_inv _ _ _ _ _ Hh Hs)
    as (bytes & files1 & Hm & Hn & Hc & Hmk & Hw & _ & ->).
  pose proof (writeFile_inv _ _ _ _ Hw) as (_ & _ & _ & _ & Hnd & Hw1).
  assert (mkdir_recursive (files w1) (uploadDir_of cwd (field request "filename"))
          = Some (files w1)) as Hmk2.
  { eapply mkdir_recursive_again; [exact Hmk|].
    intros loc Hloc. rewrite Hw1. rewrite lookup_insert_ne; [done|].
    intros <-. done. }
  pose proof (writeFile_again _ _ _ _ bytes Hw) as Hw2.
  destruct (accepted_intro cwd w1 request bytes _ _ Hm Hn Hc Hmk2 Hw2)
    as [log Hh2].
  eexists. split; [exact Hh2|]. cbn [files].
  rewrite Hw1 at 1. rewrite insert_insert_eq. by rewrite <- Hw1.
Qed.

End Frame.

End HandlerFrame.

Module HandlerOrder.

Import Js path fs Effect Route PathFacts LayoutFacts FsFacts RouteFacts.
Import StorageProperties DecimalFacts.

Section Order.

Variable cwd : list string.

(** A write of a regular file where there was no directory keeps every
    directory. *)
Lemma insert_file_keeps_dirs (files : FileSystem) (loc : list string)
    (data : list Byte.byte) :
  files !! loc ≠ Some Dir →
  ∀ l, files !! l = Some Dir → <[loc := File data]> files !! l = Some Dir.
Proof.
  intros Hnd l Hl. rewrite lookup_insert_ne; [done|]. by intros <-.
Qed.

Lemma node_at_insert_ne (files : FileSystem) (loc l : list string)
    (n : Node) :
  loc ≠ l → node_at (<[loc := n]> files) l = node_at files l.
Proof.
  intros Hne. destruct l as [|seg rest]; [done|].
  cbn [node_at]. by rewrite lookup_insert_ne.
Qed.

(** X6. Two chunks of one upload can come in either order: when a request
    and then another one for the same file name, with a different
    [chunkIndex] and no separator in either, are both accepted, they are
    also both accepted in the other order, each with the same answer, and
    the file system is the same in the end. *)
Theorem chunks_commute (w wa wb : World) (request1 request2 : NextRequest)
    (response1 response2 : NextResponse) :
  field request2 "filename" = field request1 "filename" →
  field request1 "chunkIndex" ≠ field request2 "chunkIndex" →
  contains slash (field request1 "chunkIndex") = false →
  contains slash (field request2 "chunkIndex") = false →
  handle cwd w request1 = (wa, response1) → status response1 = 200 →
  handle cwd wa request2 = (wb, response2) → status response2 = 200 →
  ∃ wa' wb',
    handle cwd w request2 = (wa', response2)
    ∧ handle cwd wa' request1 = (wb', response1)
    ∧ files wb' = files wb.
Proof.
  intros Hf Hne Hs1 Hs2 Hh1 Hst1 Hh2 Hst2.
  destruct (accepted_inv _ _ _ _ _ Hh1 Hst1)
    as (bytes1 & files1 & Hm1 & Hn1 & Hc1 & Hmk1 & Hw1 & _ & ->).
  destruct (accepted_inv _ _ _ _ _ Hh2 Hst2)
    as (bytes2 & files1' & Hm2 & Hn2 & Hc2 & Hmk2 & Hw2 & _ & ->).
  rewrite Hf in Hmk2, Hw2.
  set (f := field request1 "filename") in *.
  set (c1 := field request1 "chunkIndex") in *.
  set (c2 := field request2 "chunkIndex") in *.
  pose proof (missing_false _ Hm1) as (_ & _ & _ & Hfe). fold f in Hfe.
  pose proof (writeFile_inv _ _ _ _ Hw1) as (Hv1 & He1 & Hl1 & Hp1 & Hd1 & Ha).
  assert (files1' = files wa) as ->.
  { assert (mkdir_recursive (files wa) (uploadDir_of cwd f) = Some (files wa))
      as Hagain; [|congruence].
    eapply mkdir_recursive_again; [exact Hmk1|]. rewrite Ha.
    by apply insert_file_keeps_dirs. }
  pose proof (writeFile_inv _ _ _ _ Hw2) as (Hv2 & He2 & Hl2 & Hp2 & Hd2 & Hb).
  set (l1 := resolve (chunkPath_of cwd f c1)) in *.
  set (l2 := resolve (chunkPath_of cwd f c2)) in *.
  assert (l1 ≠ l2) as Hl.
  { unfold l1, l2. rewrite !resolve_chunkPath by done.
    intros Heq. by apply Hne, (chunk_loc_plain_inj cwd f). }
  assert (removelast l2 ≠ l1) as Hpar2.
  { intros Heq. rewrite Heq, Ha in Hp2.
    destruct l1 as [|seg rest]; [done|]. cbn [node_at] in Hp2.
    by rewrite lookup_insert_eq in Hp2. }
  assert (removelast l1 ≠ l2) as Hpar1.
  { intros Heq. apply Hd2. rewrite Ha, lookup_insert_ne by done.
    rewrite <- Heq. destruct (removelast l1) as [|seg rest] eqn:E.
    - by rewrite <- Heq in Hl2.
    - exact Hp1. }
  (* the second request first *)
  assert (writeFile files1 (chunkPath_of cwd f c2) bytes2
          = Some (<[l2 := File bytes2]> files1)) as Hw2'.
  { apply writeFile_intro; try done.
    - fold l2. rewrite Ha in Hp2. by rewrite node_at_insert_ne in Hp2.
    - fold l2. rewrite Ha in Hd2. by rewrite lookup_insert_ne in Hd2. }
  assert (mkdir_recursive (files w) (uploadDir_of cwd (field request2 "filename"))
          = Some files1) as Hmk2' by (by rewrite Hf).
  assert (writeFile files1
            (chunkPath_of cwd (field request2 "filename")
               (field request2 "chunkIndex")) bytes2
          = Some (<[l2 := File bytes2]> files1)) as Hw2'' by (by rewrite Hf).
  destruct (accepted_intro cwd w request2 bytes2 _ _ Hm2 Hn2 Hc2 Hmk2' Hw2'')
    as [log2 Hh2'].
  (* then the first one *)
  assert (mkdir_recursive (<[l2 := File bytes2]> files1) (uploadDir_of cwd f)
          = Some (<[l2 := File bytes2]> files1)) as Hmk1'.
  { eapply mkdir_recursive_again; [exact Hmk1|].
    apply insert_file_keeps_dirs. rewrite Ha in Hd2.
    by rewrite lookup_insert_ne in Hd2. }
  assert (writeFile (<[l2 := File bytes2]> files1) (chunkPath_of cwd f c1) bytes1
          = Some (<[l1 := File bytes1]> (<[l2 := File bytes2]> files1))) as Hw1'.
  { apply writeFile_intro; try done.
    - fold l1. by rewrite node_at_insert_ne.
    - fold l1. by rewrite lookup_insert_ne. }
  destruct (accepted_intro cwd (mkWorld (<[l2 := File bytes2]> files1) log2)
              request1 bytes1 _ _ Hm1 Hn1 Hc1 Hmk1' Hw1')
    as [log1 Hh1'].
  eexists _, _. split; [exact Hh2'|]. split; [exact Hh1'|].
  cbn [files]. rewrite Hb, Ha. by apply insert_insert_ne.
Qed.

(** Without [".."], normalization only drops or appends segments. *)
Lemma fold_normalize_grows (segs res : list string) :
  ".." ∉ segs →
  ∃ more, fold_left (normalize_step false) segs res = more ++ res.
Proof.
  revert res. induction segs as [|seg segs IH]; intros res Hno.
  - by exists [].
  - apply not_elem_of_cons in Hno as [Hseg Hno]. cbn [fold_left].
    unfold normalize_step at 2.
    destruct (decide (seg = "" ∨ seg = ".")); [by apply IH|].
    destruct (decide (seg = "..")) as [->|_]; [done|].
    destruct (IH (seg :: res) Hno) as [more ->].
    exists (more ++ [seg]). by rewrite <- app_assoc.
Qed.

Lemma walk_without_parent (start : list string) (p : string) :
  ".." ∉ split_slash p → start `prefix_of` walk start p.
Proof.
  intros Hno. unfold walk.
  destruct (fold_normalize_grows (split_slash p) (rev start) Hno) as [more ->].
  rewrite rev_app_distr, rev_involutive. by apply prefix_app_r.
Qed.

Lemma split_slash_chunk_name (chunkIndex : string) :
  ".." ∉ split_slash chunkIndex → ".." ∉ split_slash (chunk_name chunkIndex).
Proof.
  intros Hno. pose proof (split_slash_not_nil chunkIndex) as Hne.
  assert (∃ seg rest, split_slash chunkIndex = seg :: rest
                      ∧ split_slash (chunk_name chunkIndex)
                        = ("chunk-" +:+ seg) :: rest)
    as (seg & rest & Hi & ->).
  { unfold chunk_name.
    change ("chunk-" +:+ chunkIndex)
      with (String "c" (String "h" (String "u" (String "n" (String "k"
              (String "-" chunkIndex)))))).
    simpl. destruct (split_slash chunkIndex) as [|seg rest]; [done|].
    by exists seg, rest. }
  rewrite Hi in Hno. apply not_elem_of_cons in Hno as [_ Hrest].
  apply not_elem_of_cons. split; [discriminate|done].
Qed.

(** X7. Only [".."] leads out: when no segment of the [filename] and of
    the [chunkIndex] is [".."], the upload directory is at or below
    [public/uploads/chunks] and the chunk path is at or below the upload
    directory. *)
Theorem without_parent_segment_no_escape (filename chunkIndex : string) :
  is_empty filename = false →
  ".." ∉ split_slash filename → ".." ∉ split_slash chunkIndex →
  chunks_root cwd `prefix_of` resolve (uploadDir_of cwd filename)
  ∧ resolve (uploadDir_of cwd filename)
    `prefix_of` resolve (chunkPath_of cwd filename chunkIndex).
Proof.
  intros Hf Hno_f Hno_c.
  rewrite resolve_uploadDir, resolve_chunkPath by done. split.
  - by apply walk_without_parent.
  - by apply walk_without_parent, split_slash_chunk_name.
Qed.

(** X8. A text value in the [file] field passes the guard on the fields
    (only an empty one is missing).  The handler then makes the upload
    directory before it finds that the value has no [arrayBuffer]: the
    answer is 500, the only call is the [fs.mkdir], and when that call
    succeeded its directories stay. *)
Theorem text_blob_leaves_the_directory (w : World) (request : NextRequest)
    (text : string) :
  let uploadDir := uploadDir_of cwd (field request "filename") in
  field_chunk request = Some (entry_string text) →
  missing request = false →
  isNaN (parseInt (field request "chunkIndex")) = false →
  let '(w', response) := handle cwd w request in
  status response = 500
  ∧ calls w' = calls w ++ [call_mkdir uploadDir]
  ∧ ∀ files1,
      mkdir_recursive (files w) uploadDir = Some files1 →
      files w' = files1 ∧ node_at files1 (resolve uploadDir) = Some Dir.
Proof.
  intros uploadDir Hc Hm Hn. rewrite handle_storage by done. cbv zeta.
  fold uploadDir. rewrite Hc.
  destruct (mkdir_recursive (files w) uploadDir) as [files1|] eqn:Hmk.
  - split; [done|]. split; [done|]. intros files1' Heq.
    injection Heq as <-. split; [done|].
    apply mkdir_recursive_inv in Hmk as [_ Hmk].
    destruct (mkdir_from_spec _ _ _ _ Hmk) as (_ & _ & Hway).
    destruct (resolve uploadDir) as [|seg rest] eqn:E; [done|].
    cbn [node_at]. by apply (Hway (seg :: rest)).
  - split; [done|]. split; [done|]. intros files1' Heq. discriminate Heq.
Qed.

End Order.

End HandlerOrder.

Module IndexRoundTrip.

Import Js path fs Effect Route PathFacts LayoutFacts FsFacts RouteFacts.
Import DecimalFacts TraversalProperties HandlerProperties.

Local Open Scope nat_scope.

Lemma digit_value_digit_char (d : nat) :
  d < 10 → digit_value 10 (digit_char d) = Some (N.of_nat d).
Proof. intros Hd. do 10 (destruct d as [|d]; [reflexivity|]). lia. Qed.

Lemma digit_prefix_digits (ds : list nat) :
  Forall (λ d, d < 10) ds →
  digit_prefix 10 (string_of_digits ds) = map N.of_nat ds.
Proof.
  induction 1 as [|d ds Hd _ IH]; [done|].
  cbn [string_of_digits digit_prefix map].
  by rewrite digit_value_digit_char, IH.
Qed.

Lemma fold_digits (ds : list nat) :
  ∀ a : nat,
    fold_left (λ acc d, acc * 10 + d)%N (map N.of_nat ds) (N.of_nat a)
    = N.of_nat (a * 10 ^ length ds + value (rev ds)).
Proof.
  induction ds as [|d ds IH]; intros a.
  - cbn [map fold_left length rev value]. f_equal. simpl. lia.
  - cbn [map fold_left length rev].
    replace (N.of_nat a * 10 + N.of_nat d)%N with (N.of_nat (a * 10 + d)) by lia.
    rewrite IH, value_app, length_rev. cbn [value].
    rewrite Nat.pow_succ_r'. f_equal. lia.
Qed.

(** On a string that starts with a decimal digit and not with [0x],
    [parseInt] is the value of the run of digits. *)
Lemma parseInt_starts_with_digit (d : nat) (rest : string) :
  d < 10 →
  (d = 0 → rest = ""
           ∨ ∃ d' rest', d' < 10 ∧ rest = String (digit_char d') rest') →
  parseInt (String (digit_char d) rest)
  = match digit_prefix 10 (String (digit_char d) rest) with
    | [] => NaN
    | ds => Num (1 * Z.of_N (mathInt 10 ds))
    end.
Proof.
  intros Hd Hzero.
  destruct d as [|d].
  - destruct (Hzero eq_refl) as [->|(d' & rest' & Hd' & ->)]; [reflexivity|].
    do 10 (destruct d' as [|d']; [reflexivity|]). lia.
  - do 9 (destruct d as [|d]; [reflexivity|]). lia.
Qed.

Lemma parseInt_decimal_value (n : nat) : parseInt (decimal n) = Num (Z.of_nat n).
Proof.
  rewrite decimal_numeral. pose proof (numeral_not_nil n) as Hne.
  destruct (numeral_spec n) as [Hv Hd].
  destruct (numeral n) as [|d ds] eqn:E; [done|].
  apply Forall_cons in Hd as [Hd0 Hds].
  cbn [string_of_digits]. rewrite parseInt_starts_with_digit; [|done|].
  2:{ intros _. destruct ds as [|d' ds']; [by left|right].
      apply Forall_cons in Hds as [Hd' _].
      by exists d', (string_of_digits ds'). }
  change (String (digit_char d) (string_of_digits ds))
    with (string_of_digits (d :: ds)).
  rewrite digit_prefix_digits by (by constructor). cbn [map].
  change (N.of_nat d :: map N.of_nat ds) with (map N.of_nat (d :: ds)).
  unfold mathInt. change 0%N with (N.of_nat 0).
  rewrite fold_digits, Hv. f_equal. lia.
Qed.

(** [Number.MAX_SAFE_INTEGER]: up to it every integer is a Number, so that
    the Number which [parseInt] returns is the integer that the digits
    denote, and [String] of the Number is its decimal numeral. *)
Definition MAX_SAFE_INTEGER : Z := 2 ^ 53 - 1.

(** X9. A chunk request that carries the decimal numeral of an index as
    its [chunkIndex] (with a total and a file name that are not empty) is
    never answered 400; and for an index up to [Number.MAX_SAFE_INTEGER],
    [parseInt] reads the numeral back as that index. *)
Theorem decimal_index_round_trip (cwd : list string) (w : World)
    (bytes : list Byte.byte) (n : nat) (totalChunks filename : string) :
  is_empty totalChunks = false → is_empty filename = false →
  status (handle cwd w
            (chunk_request bytes (decimal n) totalChunks filename)).2 ≠ 400%Z
  ∧ ((Z.of_nat n ≤ MAX_SAFE_INTEGER)%Z →
     parseInt (decimal n) = Num (Z.of_nat n)).
Proof.
  intros Ht Hf. split; [|intros _; apply parseInt_decimal_value].
  apply parsed_index_passes.
  - rewrite missing_chunk_request, Ht, Hf.
    pose proof (parseInt_decimal n). by destruct (decimal n).
  - apply parseInt_decimal.
Qed.

End IndexRoundTrip.

(** * More on the upload form *)

Module FormProperties.

Import Effect FileUpload CeilingProperties.

Lemma run_snoc (events : list Event) (ev : Event) :
  run (events ++ [ev]) = step (run events) ev.
Proof. unfold run. by rewrite fold_left_app. Qed.

(** A property of the initial state that every step keeps holds after every
    sequence of events. *)
Lemma run_invariant (P : State → Prop) :
  P initial → (∀ st ev, P st → P (step st ev)) → ∀ events, P (run events).
Proof.
  intros H0 Hstep events. induction events as [|ev events IH] using rev_ind.
  - exact H0.
  - rewrite run_snoc. by apply Hstep.
Qed.

(** X10. The label of the button tells the success flag: after every
    sequence of events, [uploadSuccess] is set exactly when the label is
    ["Uploaded"], and else the label is ["Upload"]. *)
Theorem label_tells_success (events : list Event) :
  (uploadSuccess (run events) = true ∧ buttonLabel (run events) = "Uploaded")
  ∨ (uploadSuccess (run events) = false ∧ buttonLabel (run events) = "Upload").
Proof.
  apply (run_invariant
           (λ st, (uploadSuccess st = true ∧ buttonLabel st = "Uploaded")
                  ∨ (uploadSuccess st = false ∧ buttonLabel st = "Upload"))).
  - by right.
  - intros st ev Hst. destruct ev as [acceptedFiles|response|]; cbn [step].
    + unfold onDrop. destruct acceptedFiles as [|selectedFile rest]; [done|].
      by destruct (MAX_FILE_SIZE <? size selectedFile).
    + unfold handleUpload. destruct (file st); [|done].
      destruct response as [[imageUrl raw]|]; [by left|done].
    + by right.
Qed.

(** The file [f] was the first accepted file of a drop. *)
Definition dropped (events : list Event) (f : JsFile) : Prop :=
  ∃ others, Drop (f :: others) ∈ events.

Lemma dropped_snoc (events : list Event) (ev : Event) (f : JsFile) :
  dropped events f → dropped (events ++ [ev]) f.
Proof. intros [others Hin]. exists others. apply elem_of_app. by left. Qed.

(** X11. The form posts only what was dropped on it: after every sequence
    of events, each file posted to [/api/upload] was the first accepted
    file of an earlier drop, and it is within the ceiling. *)
Theorem posted_files_were_dropped (events : list Event) (f : JsFile) :
  f ∈ posted (run events) →
  dropped events f ∧ size f ≤ MAX_FILE_SIZE.
Proof.
  intros Hin. split.
  - revert f Hin.
    assert ((∀ f, file (run events) = Some f → dropped events f)
            ∧ (∀ f, f ∈ posted (run events) → dropped events f)) as [_ H];
      [|exact H].
    induction events as [|ev events [IHfile IHposted]] using rev_ind.
    { split; [done|]. intros f Hf. by apply elem_of_nil in Hf. }
    rewrite run_snoc.
    destruct ev as [acceptedFiles|response|]; cbn [step].
    + unfold onDrop. destruct acceptedFiles as [|selectedFile rest].
      { split; intros f Hf; by apply dropped_snoc; auto. }
      destruct (MAX_FILE_SIZE <? size selectedFile).
      { split; intros f Hf; by apply dropped_snoc; auto. }
      split.
      * cbn [setFile file]. intros f [= <-]. exists rest.
        apply elem_of_app. right. by apply list_elem_of_singleton.
      * cbn [setFile posted]. intros f Hf. by apply dropped_snoc; auto.
    + unfold handleUpload. destruct (file (run events)) as [g|] eqn:Hg.
      2:{ split; intros f Hf; apply dropped_snoc; auto. rewrite Hg in Hf. done. }
      assert (∀ f, f ∈ posted (run events) ++ [g]
                   → dropped (events ++ [ClickUpload response]) f) as Hsent.
      { intros f [Hf| ->%list_elem_of_singleton]%elem_of_app;
          apply dropped_snoc; auto. }
      destruct response as [[imageUrl raw]|]; split; done.
    + split; intros f Hf; by apply dropped_snoc; auto.
  - pose proof (run_within_ceiling events initial) as [_ Hposted].
    { split; [done|constructor]. }
    fold (run events) in Hposted. rewrite Forall_forall in Hposted. auto.
Qed.

Definition is_drop (ev : Event) : bool :=
  match ev with Drop (_ :: _) => true | _ => false end.

Definition is_click (ev : Event) : bool :=
  match ev with ClickUpload _ => true | _ => false end.

(** X12. No file is posted twice: after every sequence of events, the
    number of posted files is at most the number of drops that carried a
    file, and at most the number of clicks. *)
Theorem at_most_one_post_per_drop (events : list Event) :
  (length (posted (run events)) ≤ length (List.filter is_drop events))%nat
  ∧ (length (posted (run events)) ≤ length (List.filter is_click events))%nat.
Proof.
  assert ((length (posted (run events))
             + match file (run events) with Some _ => 1 | None => 0 end
           ≤ length (List.filter is_drop events))%nat
          ∧ (length (posted (run events))
             ≤ length (List.filter is_click events))%nat) as [H1 H2];
    [|split; lia].
  induction events as [|ev events [IHd IHc]] using rev_ind; [by split|].
  rewrite run_snoc, !List.filter_app, !length_app.
  destruct ev as [acceptedFiles|response|].
  - cbn [step]. unfold onDrop. destruct acceptedFiles as [|selectedFile rest].
    { simpl. split; lia. }
    destruct (MAX_FILE_SIZE <? size selectedFile); simpl.
    + split; lia.
    + destruct (file (run events)); split; lia.
  - cbn [step]. unfold handleUpload.
    destruct (file (run events)) as [g|] eqn:Hg.
    2:{ simpl. rewrite Hg. split; lia. }
    destruct response as [[imageUrl raw]|]; simpl;
      rewrite length_app; simpl; split; lia.
  - simpl. split; lia.
Qed.

(** An upload that the server answers with [ok]. *)
Definition is_ok_answer (ev : Event) : bool :=
  match ev with ClickUpload (Some _) => true | _ => false end.

(** X13. Only an upload that is answered [ok] changes the links: over
    every run of drops, uploads that fail and timer resets, from any state
    of the form, [localUploadedFileUrl] and [rawUrl] stay what they were.
    The link of the last upload is thus still shown after a later upload
    failed and after [resetUploadState]. *)
Theorem links_stay_without_ok_answer (st : State) (events : list Event) :
  forallb (λ ev, negb (is_ok_answer ev)) events = true →
  localUploadedFileUrl (fold_left step events st) = localUploadedFileUrl st
  ∧ rawUrl (fold_left step events st) = rawUrl st.
Proof.
  revert st. induction events as [|ev events IH]; intros st Hno; [done|].
  cbn [forallb] in Hno. apply andb_true_iff in Hno as [Hev Hno].
  cbn [fold_left]. destruct (IH (step st ev) Hno) as [-> ->]. clear IH Hno.
  destruct ev as [acceptedFiles|response|]; cbn [step].
  - unfold onDrop. destruct acceptedFiles as [|selectedFile rest]; [done|].
    by destruct (MAX_FILE_SIZE <? size selectedFile).
  - unfold handleUpload. destruct (file st); [|done].
    by destruct response as [[imageUrl raw]|].
  - done.
Qed.

End FormProperties.

Module LiveProperties.

Import Effect FileUpload FileUploadLive.

Lemma live_run_snoc (events : list LiveEvent) (ev : LiveEvent) :
  live_run (events ++ [ev]) = live_step (live_run events) ev.
Proof. unfold live_run. by rewrite fold_left_app. Qed.

(** The two halves agree with [FileUpload.handleUpload]: for a form with a
    selected file, the part up to the [fetch] followed at once by the part
    that handles the answer is [handleUpload] in one go. *)
Lemma begin_then_end_is_handleUpload (response : option (string * string))
    (st : State) :
  is_Some (file st) →
  handleUpload_end response (handleUpload_begin st) = handleUpload response st.
Proof.
  intros [f Hf]. unfold handleUpload_end, handleUpload_begin, handleUpload.
  rewrite Hf. by destruct response as [[imageUrl raw]|].
Qed.

(** X15. One upload at a time: the button is disabled while [uploading]
    is set, so after every sequence of drops, clicks, answers and timer
    resets at most one request awaits its answer, and [uploading] is set
    exactly when one does. *)
Theorem at_most_one_upload_in_flight (events : list LiveEvent) :
  (pending (live_run events) ≤ 1)%nat
  ∧ (uploading (ui (live_run events)) = true
     ↔ pending (live_run events) = 1%nat).
Proof.
  induction events as [|ev events IH] using rev_ind.
  { split; [cbn; lia|]. split; intros H; discriminate H. }
  rewrite live_run_snoc. set (l := live_run events) in *.
  pose proof IH as [IHle IHiff].
  destruct ev as [acceptedFiles| |response|]; cbn [live_step].
  - cbn [ui pending step]. unfold onDrop.
    destruct acceptedFiles as [|selectedFile rest]; [exact IH|].
    destruct (MAX_FILE_SIZE <? size selectedFile); exact IH.
  - unfold upload_disabled, handleUpload_begin.
    destruct (file (ui l)) as [f|] eqn:Hf; [|exact IH].
    destruct (uploading (ui l)) eqn:Hu; [by rewrite Hu|].
    cbn [ui pending uploading].
    assert (pending l = 0%nat) as ->.
    { destruct (pending l) as [|[|n]]; [done| |lia].
      destruct IHiff as [_ H]. specialize (H eq_refl). discriminate H. }
    split; [lia|]. by split.
  - destruct (pending l) as [|n] eqn:Hp; [by rewrite Hp|].
    assert (n = 0%nat) as -> by lia.
    cbn [ui pending]. split; [lia|].
    unfold handleUpload_end.
    destruct response as [[imageUrl raw]|]; cbn [uploading];
      split; intros H; discriminate H.
  - exact IH.
Qed.

Definition is_live_drop (ev : LiveEvent) : bool :=
  match ev with LiveDrop _ => true | _ => false end.

Lemma no_drop_no_post (events : list LiveEvent) :
  ∀ l, file (ui l) = None →
    forallb (λ ev, negb (is_live_drop ev)) events = true →
    file (ui (fold_left live_step events l)) = None
    ∧ posted (ui (fold_left live_step events l)) = posted (ui l).
Proof.
  induction events as [|ev events IH]; intros l Hfile Hno; [done|].
  cbn [forallb] in Hno. apply andb_true_iff in Hno as [Hev Hno].
  cbn [fold_left].
  assert (file (ui (live_step l ev)) = None
          ∧ posted (ui (live_step l ev)) = posted (ui l)) as [Hf Hp].
  { destruct ev as [?| |response|]; try done; cbn [live_step].
    - unfold upload_disabled. by rewrite Hfile.
    - destruct (pending l); [done|]. cbn [ui]. unfold handleUpload_end.
      by destruct response as [[imageUrl raw]|]. }
  destruct (IH _ Hf Hno) as [? ?]. split; [done|congruence].
Qed.

(** X16. What is dropped while an upload is in flight is lost when the
    answer arrives: the [finally] clause deselects whatever is selected.
    From a form that awaits an answer, after any drops, the answer, and any
    later events that are no drops, nothing more has been posted. *)
Theorem drop_during_upload_is_lost (l : Live)
    (drops : list (list JsFile)) (response : option (string * string))
    (later : list LiveEvent) :
  pending l ≠ 0%nat →
  forallb (λ ev, negb (is_live_drop ev)) later = true →
  posted (ui (fold_left live_step
                (map LiveDrop drops ++ [LiveSettle response] ++ later) l))
  = posted (ui l).
Proof.
  intros Hp Hno. rewrite !fold_left_app.
  assert (pending (fold_left live_step (map LiveDrop drops) l) = pending l
          ∧ posted (ui (fold_left live_step (map LiveDrop drops) l))
            = posted (ui l)) as [Hp' Hposted].
  { clear Hno. revert l Hp.
    induction drops as [|acceptedFiles drops IH]; intros l Hp; [done|].
    cbn [map fold_left].
    destruct (IH (live_step l (LiveDrop acceptedFiles))) as [-> ->]; [done|].
    cbn [live_step pending ui step]. split; [done|].
    unfold onDrop. destruct acceptedFiles as [|selectedFile rest]; [done|].
    by destruct (MAX_FILE_SIZE <? size selectedFile). }
  set (l1 := fold_left live_step (map LiveDrop drops) l) in *.
  cbn [fold_left live_step].
  destruct (pending l1) as [|n] eqn:Hn; [congruence|].
  destruct (no_drop_no_post later
              (mkLive (handleUpload_end response (ui l1)) n)) as [_ ->];
    [|done|].
  - cbn [ui]. unfold handleUpload_end. by destruct response as [[? ?]|].
  - cbn [ui]. rewrite <- Hposted. unfold handleUpload_end.
    by destruct response as [[? ?]|].
Qed.

End LiveProperties.

(** * The expiry of a paste *)

Module PasteProperties.

Import Js Pastes.

(** X17. A paste expires at most thirty days after it is made: when the
    readings of the clock do not exceed [now], the expiry is at most
    [now + maxExpirationTime], whatever date the request asks for.  There
    is no bound from below: a date that is not beyond the maximum is
    taken as it is, also when it lies in the past; and a string that is no
    date gives the default of seven days. *)
Theorem paste_expiration_bounds (Date_getTime : string → JsNumber)
    (expirationTime : option string) (now1 now2 now3 now : Z) :
  now1 ≤ now → now2 ≤ now → now3 ≤ now →
  expiration Date_getTime expirationTime now1 now2 now3
    ≤ now + maxExpirationTime
  ∧ (∀ s customExpiration,
       expirationTime = Some s → is_empty s = false →
       Date_getTime s = Num customExpiration →
       customExpiration ≤ now2 + maxExpirationTime →
       expiration Date_getTime expirationTime now1 now2 now3
       = customExpiration)
  ∧ (∀ s,
       expirationTime = Some s → Date_getTime s = NaN →
       expiration Date_getTime expirationTime now1 now2 now3
       = now1 + defaultExpirationTime).
Proof.
  intros H1 H2 H3. unfold expiration.
  assert (defaultExpirationTime ≤ maxExpirationTime) as Hdm by done.
  split; [|split].
  - destruct expirationTime as [s|]; [|lia].
    destruct (is_empty s); [lia|].
    destruct (Date_getTime s) as [|customExpiration]; [lia|].
    destruct (Z.ltb_spec (now2 + maxExpirationTime) customExpiration); lia.
  - intros s customExpiration -> -> -> Hle.
    destruct (Z.ltb_spec (now2 + maxExpirationTime) customExpiration); [lia|done].
  - intros s -> ->. by destruct (is_empty s).
Qed.

End PasteProperties.

(** * Concrete runs of the further properties *)

Module MoreScenarios.

Import Js path fs Effect Route PathFacts LayoutFacts FsFacts RouteFacts.
Import FileUpload FileUploadLive Pastes Scenarios.

(** The disk after chunk 0 of [a.bin] with the bytes [b1] was stored. *)
Definition after_first : World :=
  (handle cwd0 empty_world (chunk_request b1 "0" "2" "a.bin")).1.

(** A request whose [file] field is a text value. *)
Definition text_request : NextRequest :=
  mkRequest (Some [("file", entry_string "hello");
                   ("chunkIndex", entry_string "0");
                   ("totalChunks", entry_string "1");
                   ("filename", entry_string "a.bin")]).

Definition small : JsFile := mkFile "a.bin" 5.
Definition other : JsFile := mkFile "b.bin" 6.

(** Chunk 0 of [a.bin] is sent again with other bytes: its entry is the one
    that changes. *)
Lemma post_keeps_entries_witness :
  let loc := ["srv"; "app"; "public"; "uploads"; "chunks"; "a.bin"; "chunk-0"] in
  let request := chunk_request b2 "0" "2" "a.bin" in
  let '(w', response) := handle cwd0 after_first request in
  files w' !! loc = Some (File b1)
  ∨ (status response = 200
     ∧ loc = resolve (chunkPath_of cwd0 (field request "filename")
                        (field request "chunkIndex"))
     ∧ ∃ old bytes,
         File b1 = File old
         ∧ field_chunk request = Some (entry_File bytes)
         ∧ files w' !! loc = Some (File bytes)).
Proof.
  cbv zeta.
  apply (HandlerFrame.post_keeps_entries cwd0 after_first (chunk_request b2 "0" "2" "a.bin")
           ["srv"; "app"; "public"; "uploads"; "chunks"; "a.bin"; "chunk-0"]
           (File b1)).
  vm_compute. reflexivity.
Defined.


(** A chunk of [b.bin] leaves chunk 0 of [a.bin] as it was. *)
Lemma other_upload_is_untouched_witness :
  let request := chunk_request b2 "0" "1" "b.bin" in
  readFile (files (handle cwd0 after_first request).1)
    (chunkPath_of cwd0 "a.bin" "0")
  = readFile (files after_first) (chunkPath_of cwd0 "a.bin" "0").
Proof.
  cbv zeta.
  apply (HandlerFrame.other_upload_is_untouched cwd0 after_first
           (chunk_request b2 "0" "1" "b.bin") "a.bin" "0").
  - reflexivity.
  - reflexivity.
  - vm_compute. intros H. discriminate H.
  - reflexivity.
  - reflexivity.
Defined.

(** The index ["abc"] is answered 400 and the index ["5"] is not. *)
Lemma status_400_iff_witness :
  (let '(w', response) :=
     handle cwd0 empty_world (chunk_request b1 "abc" "3" "a.bin") in
   (status response = 400 ↔
    is_Some (request_body (chunk_request b1 "abc" "3" "a.bin"))
    ∧ (missing (chunk_request b1 "abc" "3" "a.bin") = true
       ∨ isNaN (parseInt (field (chunk_request b1 "abc" "3" "a.bin")
                            "chunkIndex")) = true))
   ∧ (status response = 400 → w' = empty_world))
  ∧ status (handle cwd0 empty_world (chunk_request b1 "abc" "3" "a.bin")).2
    = 400.
Proof.
  split.
  - exact (HandlerFrame.status_400_iff cwd0 empty_world (chunk_request b1 "abc" "3" "a.bin")).
  - reflexivity.
Defined.

(** Chunk 0 of [a.bin] sent a second time. *)
Lemma retry_changes_nothing_witness :
  let request := chunk_request b1 "0" "2" "a.bin" in
  ∃ w2,
    handle cwd0 after_first request
    = (w2, (handle cwd0 empty_world request).2)
    ∧ files w2 = files after_first.
Proof.
  cbv zeta.
  apply (HandlerFrame.retry_changes_nothing cwd0 empty_world after_first
           (chunk_request b1 "0" "2" "a.bin")).
  - apply handle_pair.
  - vm_compute. reflexivity.
Defined.

(** Chunk 0 and then chunk 1 of [a.bin], and the other way round. *)
Lemma chunks_commute_witness :
  let request1 := chunk_request b1 "0" "2" "a.bin" in
  let request2 := chunk_request b2 "1" "2" "a.bin" in
  ∃ wa' wb',
    handle cwd0 empty_world request2
    = (wa', (handle cwd0 after_first request2).2)
    ∧ handle cwd0 wa' request1 = (wb', (handle cwd0 empty_world request1).2)
    ∧ files wb' = files (handle cwd0 after_first request2).1.
Proof.
  cbv zeta.
  apply (HandlerOrder.chunks_commute cwd0 empty_world after_first
           (handle cwd0 after_first (chunk_request b2 "1" "2" "a.bin")).1
           (chunk_request b1 "0" "2" "a.bin")
           (chunk_request b2 "1" "2" "a.bin")).
  - reflexivity.
  - vm_compute. intros H. discriminate H.
  - reflexivity.
  - reflexivity.
  - apply handle_pair.
  - vm_compute. reflexivity.
  - apply handle_pair.
  - vm_compute. reflexivity.
Defined.

(** The file name [a/b.bin] and the index ["0"]. *)
Lemma without_parent_segment_no_escape_witness :
  chunks_root cwd0 `prefix_of` resolve (uploadDir_of cwd0 "a/b.bin")
  ∧ resolve (uploadDir_of cwd0 "a/b.bin")
    `prefix_of` resolve (chunkPath_of cwd0 "a/b.bin" "0").
Proof.
  apply (HandlerOrder.without_parent_segment_no_escape cwd0 "a/b.bin" "0").
  - reflexivity.
  - apply (bool_decide_unpack _). vm_compute. reflexivity.
  - apply (bool_decide_unpack _). vm_compute. reflexivity.
Defined.

(** A text value ["hello"] as the [file] of chunk 0 of [a.bin]. *)
Lemma text_blob_leaves_the_directory_witness :
  let uploadDir := uploadDir_of cwd0 "a.bin" in
  let '(w', response) := handle cwd0 empty_world text_request in
  status response = 500
  ∧ calls w' = calls empty_world ++ [call_mkdir uploadDir]
  ∧ ∀ files1,
      mkdir_recursive (files empty_world) uploadDir = Some files1 →
      files w' = files1 ∧ node_at files1 (resolve uploadDir) = Some Dir.
Proof.
  cbv zeta.
  apply (HandlerOrder.text_blob_leaves_the_directory cwd0 empty_world text_request "hello").
  - reflexivity.
  - reflexivity.
  - reflexivity.
Defined.

(** The index 12 of 20 chunks. *)
Lemma decimal_index_round_trip_witness :
  status (handle cwd0 empty_world
            (chunk_request b1 (decimal 12) "20" "a.bin")).2 ≠ 400
  ∧ parseInt (decimal 12) = Num 12.
Proof.
  destruct (IndexRoundTrip.decimal_index_round_trip cwd0 empty_world b1 12
              "20" "a.bin") as [Hstatus Hvalue].
  - reflexivity.
  - reflexivity.
  - split; [exact Hstatus|]. apply Hvalue. vm_compute. intros H. discriminate H.
Defined.

(** A drop, an upload that succeeds and the reset of the timer. *)
Definition session : list Event :=
  [Drop [small; other]; ClickUpload (Some ("/u/a.bin", "/raw/a.bin"));
   ResetTimer].

Lemma label_tells_success_witness :
  (uploadSuccess (run session) = true ∧ buttonLabel (run session) = "Uploaded")
  ∨ (uploadSuccess (run session) = false
     ∧ buttonLabel (run session) = "Upload").
Proof. exact (FormProperties.label_tells_success session). Defined.

Lemma posted_files_were_dropped_witness :
  FormProperties.dropped session small ∧ size small ≤ MAX_FILE_SIZE.
Proof.
  apply (FormProperties.posted_files_were_dropped session small).
  vm_compute. constructor.
Defined.

Lemma at_most_one_post_per_drop_witness :
  (length (posted (run (session ++ [ClickUpload None])))
   ≤ length (List.filter FormProperties.is_drop
               (session ++ [ClickUpload None])))%nat
  ∧ (length (posted (run (session ++ [ClickUpload None])))
     ≤ length (List.filter FormProperties.is_click
                 (session ++ [ClickUpload None])))%nat.
Proof.
  exact (FormProperties.at_most_one_post_per_drop
           (session ++ [ClickUpload None])).
Defined.

(** After the upload of [session]: a drop, an upload that fails and the
    reset leave the link of [session]. *)
Lemma links_stay_without_ok_answer_witness :
  localUploadedFileUrl
    (fold_left step [Drop [other]; ClickUpload None; ResetTimer] (run session))
  = Some "/u/a.bin"
  ∧ rawUrl
      (fold_left step [Drop [other]; ClickUpload None; ResetTimer]
         (run session))
    = Some "/raw/a.bin".
Proof.
  apply (FormProperties.links_stay_without_ok_answer (run session)
           [Drop [other]; ClickUpload None; ResetTimer]).
  reflexivity.
Defined.

(** A drop and two clicks: the second click starts nothing. *)
Lemma at_most_one_upload_in_flight_witness :
  (pending (live_run [LiveDrop [small]; LiveClick; LiveClick]) ≤ 1)%nat
  ∧ (uploading (ui (live_run [LiveDrop [small]; LiveClick; LiveClick])) = true
     ↔ pending (live_run [LiveDrop [small]; LiveClick; LiveClick]) = 1%nat).
Proof.
  exact (LiveProperties.at_most_one_upload_in_flight
           [LiveDrop [small]; LiveClick; LiveClick]).
Defined.

(** [other] is dropped while [small] is in flight; after the answer a click
    posts nothing. *)
Lemma drop_during_upload_is_lost_witness :
  let l := live_run [LiveDrop [small]; LiveClick] in
  posted (ui (fold_left live_step
                (map LiveDrop [[other]]
                   ++ [LiveSettle (Some ("/u/a.bin", "/raw/a.bin"))]
                   ++ [LiveClick; LiveReset]) l))
  = posted (ui l).
Proof.
  cbv zeta.
  apply (LiveProperties.drop_during_upload_is_lost
           (live_run [LiveDrop [small]; LiveClick]) [[other]]
           (Some ("/u/a.bin", "/raw/a.bin")) [LiveClick; LiveReset]).
  - vm_compute. lia.
  - reflexivity.
Defined.

(** A clock that knows one date, forty days after [now]. *)
Definition one_date (s : string) : JsNumber :=
  if String.eqb s "2030-01-01T00:00:00Z" then Num 1893456000000 else NaN.

Lemma paste_expiration_bounds_witness :
  let now := 1890000000000 in
  expiration one_date (Some "2030-01-01T00:00:00Z") now now now
  ≤ now + maxExpirationTime.
Proof.
  cbv zeta.
  apply (PasteProperties.paste_expiration_bounds one_date
           (Some "2030-01-01T00:00:00Z")
           1890000000000 1890000000000 1890000000000 1890000000000); lia.
Defined.

End MoreScenarios.
